(** * A shallow embedding of the load balancer's target-selection and
      forwarding engine

    The two Python modules [target_group.py] and [load_balancer.py] are
    embedded as Rocq functions.  Python strings are sequences of code
    points; the embedding covers code points below 256 (one [ascii] each).
    Dictionaries that are only looked up are [gmap]s; dictionaries whose
    insertion order is observed are association lists with unique keys.
    A call that may raise returns a [result]. *)

From Stdlib Require Import ZArith String Ascii List Permutation.
From stdpp Require Import gmap strings list pretty.

Local Open Scope string_scope.
Local Open Scope list_scope.
Local Open Scope Z_scope.

(** ** Exceptions and results *)

(** The exception classes that the two modules name in their handlers,
    the classes the library calls they make are known to raise, any other
    subclass of [Exception], and the classes that derive from
    [BaseException] without deriving from [Exception], which an
    [except Exception:] clause lets pass. *)
Inductive exc_class : Type :=
  | BaseException
  | KeyboardInterrupt
  | SystemExit
  | Exception
  | OSError               (* socket.error is an alias of OSError *)
  | gaierror              (* socket.gaierror *)
  | ValueError
  | UnicodeError
  | IndexError
  | RequestException      (* requests.exceptions.* from here on *)
  | Timeout
  | ConnectionError
  | ConnectTimeout
  | ReadTimeout
  | OtherException (name : string).

(** Method resolution order: the class itself followed by its bases. *)
Definition mro (c : exc_class) : list exc_class :=
  match c with
  | BaseException => [BaseException]
  | KeyboardInterrupt => [KeyboardInterrupt; BaseException]
  | SystemExit => [SystemExit; BaseException]
  | Exception => [Exception; BaseException]
  | OSError => [OSError; Exception; BaseException]
  | gaierror => [gaierror; OSError; Exception; BaseException]
  | ValueError => [ValueError; Exception; BaseException]
  | UnicodeError => [UnicodeError; ValueError; Exception; BaseException]
  | IndexError => [IndexError; Exception; BaseException]
  | RequestException => [RequestException; OSError; Exception; BaseException]
  | Timeout => [Timeout; RequestException; OSError; Exception; BaseException]
  | ConnectionError =>
      [ConnectionError; RequestException; OSError; Exception; BaseException]
  | ConnectTimeout =>
      [ConnectTimeout; ConnectionError; Timeout; RequestException; OSError;
       Exception; BaseException]
  | ReadTimeout =>
      [ReadTimeout; Timeout; RequestException; OSError; Exception;
       BaseException]
  | OtherException n => [OtherException n; Exception; BaseException]
  end.

#[global] Instance exc_class_eq_dec : EqDecision exc_class.
Proof. solve_decision. Defined.

(** A raised exception: its class and the text [str(e)] gives. *)
Record exn : Type := mkExn { exc_cls : exc_class; exc_str : string }.

(** [isinstance(e, c)], as an [except c:] clause tests it. *)
Definition isinstance (e : exn) (c : exc_class) : bool :=
  bool_decide (c ∈ mro (exc_cls e)).

Inductive result (A : Type) : Type :=
  | Ok (a : A)
  | Raise (e : exn).
Arguments Ok {A} a.
Arguments Raise {A} e.

(** [result] is an error monad; stdpp's [x ← r; k] is its bind. *)
#[global] Instance result_ret : MRet result := fun A a => Ok a.
#[global] Instance result_bind : MBind result := fun A B k r =>
  match r with
  | Ok a => k a
  | Raise e => Raise e
  end.

(** ** Python string methods *)

Definition code (c : ascii) : Z := Z.of_N (N_of_ascii c).

(** [str.isspace] on one code point below 256. *)
Definition isspace (c : ascii) : bool :=
  let n := code c in
  ((9 <=? n) && (n <=? 13)) || ((28 <=? n) && (n <=? 32))
  || (n =? 133) || (n =? 160).

(** [str.lower] on one code point below 256: A-Z and the Latin-1 capitals
    (all of 192-222 but the multiplication sign 215) move up by 32. *)
Definition lower_char (c : ascii) : ascii :=
  let n := code c in
  if ((65 <=? n) && (n <=? 90))
     || ((192 <=? n) && (n <=? 222) && negb (n =? 215))
  then ascii_of_N (Z.to_N (n + 32)) else c.

Fixpoint lower (s : string) : string :=
  match s with
  | EmptyString => EmptyString
  | String c r => String (lower_char c) (lower r)
  end.

Fixpoint lstrip_by (sp : ascii -> bool) (s : string) : string :=
  match s with
  | EmptyString => EmptyString
  | String c r => if sp c then lstrip_by sp r else s
  end.

Fixpoint rstrip_by (sp : ascii -> bool) (s : string) : string :=
  match s with
  | EmptyString => EmptyString
  | String c r =>
      match rstrip_by sp r with
      | EmptyString => if sp c then EmptyString else String c EmptyString
      | r' => String c r'
      end
  end.

(** [s.strip()] *)
Definition strip (s : string) : string := rstrip_by isspace (lstrip_by isspace s).

(** [c in s] for a one-character [c]. *)
Fixpoint contains (c : ascii) (s : string) : bool :=
  match s with
  | EmptyString => false
  | String d r => Ascii.eqb d c || contains c r
  end.

(** [s.split(sep)] for a one-character separator. *)
Fixpoint split (sep : ascii) (s : string) : list string :=
  match s with
  | EmptyString => [EmptyString]
  | String c r =>
      if Ascii.eqb c sep then EmptyString :: split sep r
      else match split sep r with
           | h :: t => String c h :: t
           | [] => [String c EmptyString]
           end
  end.

(** [s.split(sep, 1)]: cut at the first separator, if there is one. *)
Fixpoint split1 (sep : ascii) (s : string) : list string :=
  match s with
  | EmptyString => [EmptyString]
  | String c r =>
      if Ascii.eqb c sep then [EmptyString; r]
      else match split1 sep r with
           | h :: t => String c h :: t
           | [] => [String c EmptyString]
           end
  end.

(** [s.rsplit(sep, 1)]: cut at the last separator, if there is one. *)
Fixpoint rsplit1 (sep : ascii) (s : string) : list string :=
  match s with
  | EmptyString => [EmptyString]
  | String c r =>
      if contains sep r then
        match rsplit1 sep r with
        | h :: t => String c h :: t
        | [] => [String c EmptyString]
        end
      else if Ascii.eqb c sep then [EmptyString; r]
      else [s]
  end.

(** *** [int(s)] for a string argument, base 10

    Surrounding white space is skipped, one sign is allowed, and the
    digits may be separated by single underscores.  [None] stands for
    [ValueError], the only exception [int] raises on a string. *)

Definition is_digit (c : ascii) : bool := (48 <=? code c) && (code c <=? 57).

(** White space as [int] sees it: the C locale's, and the two Latin-1
    spaces that a non-ASCII string has replaced by a blank beforehand. *)
Definition int_space (c : ascii) : bool :=
  let n := code c in
  ((9 <=? n) && (n <=? 13)) || (n =? 32) || (n =? 133) || (n =? 160).

(** The default of [sys.int_info.default_max_str_digits]. *)
Definition int_max_str_digits : Z := 4300.

(** [acc] is the value read so far, [n] the number of digits read, and
    [prev] tells whether the previous character was a digit. *)
Fixpoint int_digits (s : string) (acc n : Z) (prev : bool) : option Z :=
  match s with
  | EmptyString =>
      if prev && (n <=? int_max_str_digits) then Some acc else None
  | String c r =>
      if is_digit c then int_digits r (10 * acc + (code c - 48)) (n + 1) true
      else if Ascii.eqb c "_" then
        if prev then int_digits r acc n false else None
      else None
  end.

Definition int (s : string) : option Z :=
  match rstrip_by int_space (lstrip_by int_space s) with
  | String "+" r => int_digits r 0 0 false
  | String "-" r => option_map Z.opp (int_digits r 0 0 false)
  | t => int_digits t 0 0 false
  end.

(** ** Insertion-ordered dictionaries with string keys

    The items are kept in insertion order and no key occurs twice. *)
Section Dict.
Context {V : Type}.

Definition dict : Type := list (string * V).

Fixpoint dict_get (k : string) (d : dict) : option V :=
  match d with
  | [] => None
  | (k', v) :: d' => if String.eqb k k' then Some v else dict_get k d'
  end.

(** [k in d] *)
Definition dict_in (k : string) (d : dict) : bool :=
  match dict_get k d with Some _ => true | None => false end.

(** [d[k] = v]: an existing key keeps its place, a new one goes last. *)
Fixpoint dict_set (k : string) (v : V) (d : dict) : dict :=
  match d with
  | [] => [(k, v)]
  | (k', v') :: d' =>
      if String.eqb k k' then (k', v) :: d' else (k', v') :: dict_set k v d'
  end.

(** [{k: v for k, v in items}] *)
Definition dict_of_items (items : list (string * V)) : dict :=
  fold_left (fun d kv => dict_set (fst kv) (snd kv) d) items [].

(** The value that the last pair with key [k] carries, if there is one:
    what [dict(items)[k]] reads. *)
Fixpoint last_value (k : string) (items : list (string * V)) : option V :=
  match items with
  | [] => None
  | (k', v) :: r =>
      match last_value k r with
      | Some v' => Some v'
      | None => if String.eqb k k' then Some v else None
      end
  end.

End Dict.
Arguments dict V : clear implicits.

(** [l[i]] for a list: a negative index counts from the end. *)
Definition getitem {A : Type} (l : list A) (i : Z) : result A :=
  let n := Z.of_nat (length l) in
  let j := if i <? 0 then i + n else i in
  match (if (0 <=? j) && (j <? n) then l !! Z.to_nat j else None) with
  | Some a => Ok a
  | None => Raise (mkExn IndexError "list index out of range")
  end.

(** [a % b] on integers: the result takes the sign of [b], as [Z.modulo]. *)
Definition py_mod (a b : Z) : result Z :=
  if b =? 0 then
    Raise (mkExn (OtherException "ZeroDivisionError")
                 "integer division or modulo by zero")
  else Ok (a mod b).

Definition is_empty (s : string) : bool :=
  match s with EmptyString => true | _ => false end.

(** * target_group.py *)

(** Modelled from the spec: the [Target] class of target.py, which is
    imported by both modules but is not among the sources.  The spec's data
    model gives it the fields [ip], [port], [base_uri] and the optional
    [hostname]; the constructor call [Target(ip, port, base_uri,
    hostname=hostname)] fills them in this order.  A value of this type
    records the arguments of one such call as [_parse_targets] makes it.
    The spec gives the class no behaviour at construction: parsing is to
    emit one Target per resolved address with the entry's port, and an
    entry is dropped only for a port that is not numeric; so the port is an
    unbounded integer here, as [int] returns it. *)
Record Target : Type := mkTarget {
  ip : string;
  port : Z;
  base_uri : string;
  hostname : option string
}.

(** One entry of the list [socket.getaddrinfo] returns:
    [(family, type, proto, canonname, sockaddr)], with [sockaddr] the pair
    [(address, port)] for [AF_INET]. *)
Definition addr_info : Type := (Z * Z * Z * string * (string * Z))%type.

(** The two calls into the [socket] module.  [getaddrinfo h] stands for
    [socket.getaddrinfo(h, None, socket.AF_INET)]. *)
Record sockets : Type := mkSockets {
  inet_aton : string -> result unit;
  getaddrinfo : string -> result (list addr_info)
}.

Module TargetGroup.

Record t : Type := mk {
  name : string;
  weights : gmap string Z;
  _weights_provided : bool;
  targets : list Target
}.

(** The loop over [addr_infos]: [seen_ips] and [ip_addresses] are the two
    accumulators. *)
Definition unique_ips (addr_infos : list addr_info) : list string :=
  snd (fold_left
         (fun (st : gset string * list string) (ai : addr_info) =>
            let ip := fst (snd ai) in
            if bool_decide (ip ∈ fst st) then st
            else (fst st ∪ {[ip]}, snd st ++ [ip]))
         addr_infos (∅, [])).

Definition _resolve_dns (sk : sockets) (hostname : string)
  : result (list string) :=
  match inet_aton sk hostname with
  | Ok _ => Ok [hostname]
  | Raise e =>
      if isinstance e OSError then
        match getaddrinfo sk hostname with
        | Ok addr_infos => Ok (unique_ips addr_infos)
        | Raise e' => if isinstance e' gaierror then Ok [] else Raise e'
        end
      else Raise e
  end.

(** Lines 53-60: the address part and the base URI of an entry. *)
Definition split_base_uri (spec : string) : result (string * string) :=
  if contains "/" spec then
    let parts := split1 "/" spec in
    address_part ← getitem parts 0;
    rest ← getitem parts 1;
    Ok (address_part, if is_empty rest then "/" else "/" +:+ rest)
  else Ok (spec, "/").

(** Lines 63-71: the host name and the port of an address part; [None]
    is the [continue] taken when [int] raises [ValueError]. *)
Definition split_port (address_part : string) : result (option (string * Z)) :=
  if contains ":" address_part then
    match rsplit1 ":" address_part with
    | [hostname; port_str] =>
        match int port_str with
        | Some port => Ok (Some (hostname, port))
        | None => Ok None
        end
    | _ => Raise (mkExn ValueError "not enough values to unpack")
    end
  else Ok (Some (address_part, 80)).

(** The loop of [_parse_targets]; [targets] is the list built so far. *)
Fixpoint parse_specs (sk : sockets) (target_specs : list string)
    (targets : list Target) : result (list Target) :=
  match target_specs with
  | [] => Ok targets
  | spec :: rest =>
      if is_empty spec then parse_specs sk rest targets
      else
        ab ← split_base_uri spec;
        hp ← split_port (fst ab);
        match hp with
        | None => parse_specs sk rest targets
        | Some (hostname, port) =>
            ip_addresses ← _resolve_dns sk hostname;
            parse_specs sk rest
              (targets ++
               map (fun ip => mkTarget ip port (snd ab) (Some hostname))
                   ip_addresses)
        end
  end.

Definition _parse_targets (sk : sockets) (targets_str : string)
  : result (list Target) :=
  if is_empty targets_str then Ok []
  else parse_specs sk (map strip (split "," targets_str)) [].

Definition __init__ (sk : sockets) (name : string) (targets_str : string)
    (weights : option (gmap string Z)) : result t :=
  targets ← _parse_targets sk targets_str;
  Ok {| name := name;
        weights := default ∅ weights;
        _weights_provided := bool_decide (weights ≠ None);
        targets := targets |}.

Definition get_targets (self : t) : list Target := targets self.

Definition get_weight (self : t) (hostname : string) : Z :=
  default 1 (weights self !! hostname).

(** [target.hostname or target.ip]: an absent or empty host name gives way
    to the address. *)
Definition hostname_or_ip (target : Target) : string :=
  match hostname target with
  | Some h => if is_empty h then ip target else h
  | None => ip target
  end.

(** The first loop of [get_weighted_target_list].  The key is in the
    dictionary when its list is read, so the default is never used. *)
Definition group_by_hostname (targets : list Target) : dict (list Target) :=
  fold_left
    (fun hostname_targets target =>
       let hostname := hostname_or_ip target in
       let d := if negb (dict_in hostname hostname_targets)
                then dict_set hostname [] hostname_targets
                else hostname_targets in
       dict_set hostname (default [] (dict_get hostname d) ++ [target]) d)
    targets [].

Definition get_weighted_target_list (self : t) : list Target :=
  if negb (_weights_provided self) then []
  else
    fold_left
      (fun weighted_list item =>
         let weight := get_weight self (fst item) in
         Nat.iter (Z.to_nat weight) (fun l => l ++ snd item) weighted_list)
      (group_by_hostname (targets self)) [].

End TargetGroup.

(** * load_balancer.py *)

(** [HOP_BY_HOP_HEADERS], a set used for membership tests only. *)
Definition HOP_BY_HOP_HEADERS : gset string :=
  {["connection"; "keep-alive"; "transfer-encoding"]}.

(** Modelled from the spec: the [Config] class of config.py, which is not
    among the sources.  The configuration provider supplies the selected
    algorithm name and a connection timeout, both read-only. *)
Record Config : Type := mkConfig {
  get_load_balancing_algorithm : string;
  get_connection_timeout : Z
}.

(** The inbound request, as far as [forward_request] reads it: the method,
    the headers as the pairs that iterating [request.headers] yields, what
    [request.get_data()] does, and the raw query string. *)
Record Request : Type := mkRequest {
  method : string;
  headers : list (string * string);
  get_data : result string;
  query_string : string
}.

(** A response object as the caller of [forward_request] reads it: the
    body, the status code and the headers.  Such objects come from Flask's
    [Response(...)] constructor and from the error responder, both of which
    are collaborators below. *)
Record Response : Type := mkResponse {
  response_content : string;
  response_status : Z;
  response_headers : dict string
}.

(** What [session.request] returns: [content], [status_code] and the items
    of [headers]. *)
Record UpstreamResponse : Type := mkUpstream {
  content : string;
  status_code : Z;
  upstream_headers : list (string * string)
}.

(** A [requests.Session] as [_get_session] configures it, with the
    headers the session carries of its own ([session.headers]).  The
    identity of the object is not part of the record: two sessions with the
    same settings are equal. *)
Record Session : Type := mkSession {
  trust_env : bool;
  pool_connections : Z;
  pool_maxsize : Z;
  max_retries : Z;
  session_headers : dict string
}.

(** The keyword arguments of the call [session.request(...)]. *)
Record Outbound : Type := mkOutbound {
  out_method : string;
  out_url : string;
  out_headers : dict string;
  out_data : string;
  out_timeout : Z;
  out_allow_redirects : bool
}.

(** The collaborators of [forward_request] that lie outside the module:
    [Target.get_url] of target.py, [bytes.decode('utf-8')], the outbound
    call of the [requests] library, Flask's [Response(content, status=...,
    headers=...)], which completes the headers it is given, and
    [handle_error] of error_handler.py, which turns a status code and a
    message into a response. *)
Record collaborators : Type := mkCollaborators {
  get_url : Target -> string -> result string;
  decode_utf8 : string -> result string;
  session_request : Session -> Outbound -> result UpstreamResponse;
  make_response : string -> Z -> dict string -> Response;
  handle_error : Z -> string -> Response
}.

Module LoadBalancer.

Record t : Type := mk {
  config : Config;
  round_robin_counters : gmap string Z;
  _sessions : gmap string Session
}.

Definition __init__ (config : Config) : t :=
  {| config := config; round_robin_counters := ∅; _sessions := ∅ |}.

Definition set_counter (self : t) (group_name : string) (v : Z) : t :=
  {| config := config self;
     round_robin_counters := <[group_name := v]> (round_robin_counters self);
     _sessions := _sessions self |}.

(** The method mutates [self.round_robin_counters]; the balancer it
    returns is [self] afterwards, also when it raises. *)
Definition _round_robin (self : t) (target_group : TargetGroup.t)
    (targets : list Target) : result Target * t :=
  let group_name := TargetGroup.name target_group in
  let self1 :=
    if bool_decide (round_robin_counters self !! group_name = None)
    then set_counter self group_name 0 else self in
  let index := default 0 (round_robin_counters self1 !! group_name) in
  let len := Z.of_nat (length targets) in
  match i ← py_mod index len; getitem targets i with
  | Raise e => (Raise e, self1)
  | Ok target =>
      match py_mod (index + 1) len with
      | Raise e => (Raise e, self1)
      | Ok next => (Ok target, set_counter self1 group_name next)
      end
  end.

(** [targets[0] if targets else None] *)
Definition first_or_none (targets : list Target) : result (option Target) :=
  match targets with
  | [] => Ok None
  | _ => target ← getitem targets 0; Ok (Some target)
  end.

Definition select_target (self : t) (target_group : TargetGroup.t)
    (request : Request) : result (option Target) * t :=
  let targets := TargetGroup.get_targets target_group in
  match targets with
  | [] => (Ok None, self)
  | _ =>
      let algorithm := get_load_balancing_algorithm (config self) in
      if String.eqb algorithm "ROUND_ROBIN" then
        let (r, self') := _round_robin self target_group targets in
        (target ← r; Ok (Some target), self')
      else if String.eqb algorithm "WEIGHTED" then (first_or_none targets, self)
      else if String.eqb algorithm "STICKY" then (first_or_none targets, self)
      else if String.eqb algorithm "LRT" then (first_or_none targets, self)
      else
        let (r, self') := _round_robin self target_group targets in
        (target ← r; Ok (Some target), self')
  end.

(** The headers of a fresh [requests.Session()].  The user agent and the
    accepted encodings depend on the installed version of the library;
    [Accept] and [Connection] do not. *)
Definition default_headers : dict string :=
  [("User-Agent", "python-requests/2.31.0");
   ("Accept-Encoding", "gzip, deflate");
   ("Accept", "*/*");
   ("Connection", "keep-alive")].

Definition new_session : Session :=
  {| trust_env := false; pool_connections := 10; pool_maxsize := 20;
     max_retries := 0; session_headers := default_headers |}.

Definition _get_session (self : t) (target : Target) : Session * t :=
  let host_port := ip target +:+ ":" +:+ pretty (port target) in
  match _sessions self !! host_port with
  | Some session => (session, self)
  | None =>
      (new_session,
       {| config := config self;
          round_robin_counters := round_robin_counters self;
          _sessions := <[host_port := new_session]> (_sessions self) |})
  end.

(** The headers of the outbound request: the dictionary comprehension of
    lines 139-142. *)
Definition outbound_headers (request : Request) : dict string :=
  dict_of_items
    (filter (fun kv => lower (fst kv) ∉ HOP_BY_HOP_HEADERS) (headers request)).

(** The [try] block up to the outbound call: the session and the arguments
    that [session.request] is about to receive. *)
Definition prepare (c : collaborators) (self : t) (target : Target)
    (request : Request) (path : string) : result (Session * Outbound) * t :=
  match
    (url ← get_url c target path;
     let headers := outbound_headers request in
     data ← get_data request;
     query_string ← decode_utf8 c (query_string request);
     let url := if is_empty query_string then url
                else url +:+ "?" +:+ query_string in
     Ok (headers, data, url))
  with
  | Raise e => (Raise e, self)
  | Ok (headers, data, url) =>
      let timeout := get_connection_timeout (config self) in
      let (session, self') := _get_session self target in
      (Ok (session,
           {| out_method := method request; out_url := url;
              out_headers := headers; out_data := data;
              out_timeout := timeout; out_allow_redirects := false |}),
       self')
  end.

(** The whole [try] block. *)
Definition forward (c : collaborators) (self : t) (target : Target)
    (request : Request) (path : string) : result Response * t :=
  let (r, self') := prepare c self target request path in
  (so ← r;
   response ← session_request c (fst so) (snd so);
   Ok (make_response c (content response) (status_code response)
         (dict_of_items (upstream_headers response))),
   self').

(** [forward_request]: the [try] block under its three handlers.  An
    exception that no handler matches propagates. *)
Definition forward_request (c : collaborators) (self : t) (target : Target)
    (request : Request) (path : string) : result Response * t :=
  let (r, self') := forward c self target request path in
  match r with
  | Ok flask_response => (Ok flask_response, self')
  | Raise e =>
      if isinstance e Timeout then
        (Ok (handle_error c 504 "Request timeout"), self')
      else if isinstance e ConnectionError then
        (Ok (handle_error c 502 "Connection error"), self')
      else if isinstance e Exception then
        (Ok (handle_error c 502 ("Error forwarding request: " +:+ exc_str e)),
         self')
      else (Raise e, self')
  end.

End LoadBalancer.

(** * Notions used in the statements *)

(** [n] consecutive calls of [select_target] on one group, with nothing
    else touching the balancer in between: the results in call order and
    the balancer afterwards. *)
Fixpoint select_many (n : nat) (self : LoadBalancer.t)
    (target_group : TargetGroup.t) (request : Request)
  : list (result (option Target)) * LoadBalancer.t :=
  match n with
  | O => ([], self)
  | S n' =>
      let (r, self') := LoadBalancer.select_target self target_group request in
      let (rs, self'') := select_many n' self' target_group request in
      (r :: rs, self'')
  end.

(** The index that [_round_robin] reads for a group: the stored counter,
    or 0 for a group it has not seen. *)
Definition next_index (self : LoadBalancer.t) (g : TargetGroup.t) : Z :=
  default 0 (LoadBalancer.round_robin_counters self !! TargetGroup.name g).

(** The distinct elements of a list, in the order of their first
    occurrence. *)
Definition first_seen (ks : list string) : list string :=
  fold_left (fun acc k => if bool_decide (k ∈ acc) then acc else acc ++ [k])
            ks [].

(** The targets of a list that [get_weighted_target_list] files under the
    key [h]. *)
Definition targets_of (h : string) (ts : list Target) : list Target :=
  filter (fun t => TargetGroup.hostname_or_ip t = h) ts.

(** The targets of a list whose [hostname] field is [h]. *)
Definition with_hostname (h : string) (ts : list Target) : list Target :=
  filter (fun t => hostname t = Some h) ts.

(** [n] copies of a block, one after the other. *)
Definition copies (n : nat) (block : list Target) : list Target :=
  concat (replicate n block).

(** The entries of a specification string, as the loop of
    [_parse_targets] visits them. *)
Definition entries (targets_str : string) : list string :=
  map strip (split "," targets_str).

(** [port_of_entry spec p]: the loop gives the targets of the entry [spec]
    the port [p], which is 80 when the address part has no colon and is
    otherwise what [int] reads after the last colon. *)
Definition port_of_entry (spec : string) (p : Z) : Prop :=
  exists address_part uri,
    TargetGroup.split_base_uri spec = Ok (address_part, uri) /\
    ((contains ":" address_part = false /\ p = 80) \/
     (contains ":" address_part = true /\
      exists host port_str,
        rsplit1 ":" address_part = [host; port_str] /\ int port_str = Some p)).

(** [host_of_entry spec h]: the loop gives the targets of the entry [spec]
    the host name [h], which is the whole address part when it has no
    colon and is otherwise what stands before the last colon. *)
Definition host_of_entry (spec : string) (h : string) : Prop :=
  exists address_part uri,
    TargetGroup.split_base_uri spec = Ok (address_part, uri) /\
    ((contains ":" address_part = false /\ h = address_part) \/
     (contains ":" address_part = true /\
      exists port_str, rsplit1 ":" address_part = [h; port_str])).

(** The targets that one entry adds to the list, or the exception that
    ends the loop at this entry. *)
Definition entry_targets (sk : sockets) (spec : string) : result (list Target) :=
  if is_empty spec then Ok []
  else
    ab ← TargetGroup.split_base_uri spec;
    hp ← TargetGroup.split_port (fst ab);
    match hp with
    | None => Ok []
    | Some (host, port) =>
        ip_addresses ← TargetGroup._resolve_dns sk host;
        Ok (map (fun ip => mkTarget ip port (snd ab) (Some host)) ip_addresses)
    end.

(** For the host [h] the socket calls fail only with the exceptions that
    [_resolve_dns] handles. *)
Definition handled_at (sk : sockets) (h : string) : Prop :=
  (forall e, inet_aton sk h = Raise e -> isinstance e OSError = true) /\
  (forall e, getaddrinfo sk h = Raise e -> isinstance e gaierror = true).

(** The socket calls fail only with the exceptions that [_resolve_dns]
    handles. *)
Definition handled_failures (sk : sockets) : Prop :=
  (forall h e, inet_aton sk h = Raise e -> isinstance e OSError = true) /\
  (forall h e, getaddrinfo sk h = Raise e -> isinstance e gaierror = true).

(** Modelled on the [requests] library, which [forward_request] calls
    but which is not among the sources: the headers of the request that
    [session.request(..., headers=headers)] prepares.  The session's own
    headers are copied into a case-insensitive dictionary and the call's
    headers are written over them; a name that is already there, in
    whatever casing, keeps its place and takes the new spelling and value.
    What the body adds later (a [Content-Length]) is left out. *)
Fixpoint ci_set (k v : string) (d : dict string) : dict string :=
  match d with
  | [] => [(k, v)]
  | (k', v') :: d' =>
      if String.eqb (lower k) (lower k') then (k, v) :: d'
      else (k', v') :: ci_set k v d'
  end.

Definition prepared_headers (session : Session) (headers : dict string)
  : dict string :=
  fold_left (fun d kv => ci_set (fst kv) (snd kv) d) headers
            (session_headers session).

(** * An example environment

    A resolver over a fixed host table.  It follows CPython's [socket]
    module where that module raises before any lookup is made:
    [inet_aton] raises [ValueError] on an embedded null character and
    [OSError] on anything that is not an address (of the addresses it
    accepts, the four-part dotted form is enough here); [getaddrinfo]
    encodes the host with the [idna] codec first, which raises
    [UnicodeError] when a label is empty or longer than 63 characters, and
    raises [gaierror] for a name that is not in the table. *)

Fixpoint all_digits (s : string) : bool :=
  match s with
  | EmptyString => true
  | String c r => is_digit c && all_digits r
  end.

Definition octet (s : string) : bool :=
  negb (is_empty s) && all_digits s
  && match int s with Some n => n <=? 255 | None => false end.

Definition dotted_quad (h : string) : bool :=
  match split "." h with
  | [a; b; c; d] => octet a && octet b && octet c && octet d
  | _ => false
  end.

(** The ASCII path of [encodings.idna]: every label but the last is
    between 1 and 63 characters long, the last is at most 63. *)
Fixpoint idna_labels_ok (labels : list string) : bool :=
  match labels with
  | [] => true
  | [last] => (String.length last <? 64)%nat
  | l :: rest =>
      (0 <? String.length l)%nat && (String.length l <? 64)%nat
      && idna_labels_ok rest
  end.

Definition idna_ok (h : string) : bool :=
  is_empty h || idna_labels_ok (split "." h).

Definition example_hosts : dict (list string) :=
  [("a.com", ["192.0.2.10"]);
   ("b.com", ["192.0.2.20"]);
   ("svc.local", ["198.51.100.1"; "198.51.100.2"])].

(** One stream, one datagram and one raw entry per address, as
    [getaddrinfo] lists them when no socket type is asked for. *)
Definition addr_infos_of (ips : list string) : list addr_info :=
  flat_map (fun a => [(2, 1, 6, "", (a, 0)); (2, 2, 17, "", (a, 0));
                      (2, 3, 0, "", (a, 0))]) ips.

Definition example_sockets : sockets :=
  {| inet_aton h :=
       if contains "000" h then
         Raise (mkExn ValueError "embedded null character")
       else if dotted_quad h then Ok tt
       else Raise (mkExn OSError
                         "illegal IP address string passed to inet_aton");
     getaddrinfo h :=
       if negb (idna_ok h) then
         Raise (mkExn UnicodeError "encoding with 'idna' codec failed")
       else
         match dict_get h example_hosts with
         | Some ips => Ok (addr_infos_of ips)
         | None => Raise (mkExn gaierror "Name or service not known")
         end |}.

(** A responder and an upstream for the examples: the responder puts the
    message in the body, the upstream answers 200 with an empty body, and
    the response constructor keeps the headers it is given. *)
Definition example_collaborators : collaborators :=
  {| get_url t path :=
       Ok ("http://" +:+ ip t +:+ ":" +:+ pretty (port t) +:+ base_uri t
           +:+ path);
     decode_utf8 b := Ok b;
     session_request _ _ := Ok (mkUpstream "" 200 []);
     make_response := mkResponse;
     handle_error status message := mkResponse message status [] |}.

Definition example_request : Request :=
  {| method := "GET";
     headers := [("Host", "lb.example"); ("Connection", "close");
                 ("KEEP-ALIVE", "timeout=5"); ("X-Token", "s3");
                 ("transfer-Encoding", "chunked")];
     get_data := Ok "";
     query_string := "" |}.

(** The same collaborators with an upstream call that raises [e]. *)
Definition upstream_raises (e : exn) : collaborators :=
  {| get_url := get_url example_collaborators;
     decode_utf8 := decode_utf8 example_collaborators;
     session_request _ _ := Raise e;
     make_response := make_response example_collaborators;
     handle_error := handle_error example_collaborators |}.

Definition example_target : Target :=
  mkTarget "192.0.2.10" 8080 "/svc" (Some "a.com").

(** An upstream that looks at the headers it is called with: it answers
    400 when one of them has a hop-by-hop name and 200 otherwise. *)
Definition inspecting_collaborators : collaborators :=
  {| get_url := get_url example_collaborators;
     decode_utf8 := decode_utf8 example_collaborators;
     session_request _ o :=
       if forallb (fun kv => bool_decide (lower (fst kv) ∉ HOP_BY_HOP_HEADERS))
                  (out_headers o)
       then Ok (mkUpstream "ok" 200 [])
       else Ok (mkUpstream "hop-by-hop header received" 400 []);
     make_response := make_response example_collaborators;
     handle_error := handle_error example_collaborators |}.

(** * Notions for the properties beyond the claims *)

(** The algorithm names that [select_target] answers with the first
    candidate. *)
Definition placeholder (algorithm : string) : bool :=
  String.eqb algorithm "WEIGHTED" || String.eqb algorithm "STICKY"
  || String.eqb algorithm "LRT".

(** The key under which [_get_session] files the session of a target:
    [f"{target.ip}:{target.port}"]. *)
Definition host_port (target : Target) : string :=
  ip target +:+ ":" +:+ pretty (port target).

(** The address that one entry of [getaddrinfo]'s answer carries:
    [addr_info[4][0]]. *)
Definition addr_of (ai : addr_info) : string := fst (snd ai).

(** Every target as many times as the weight of its key says, in list
    order. *)
Definition repeated (g : TargetGroup.t) (ts : list Target) : list Target :=
  flat_map
    (fun t => replicate
                (Z.to_nat (TargetGroup.get_weight g (TargetGroup.hostname_or_ip t)))
                t)
    ts.

(** * The string functions on sample inputs *)

Example int_samples :
  (int " 80 ", int "+80", int "-5", int "0", int "99999", int "8_0", int "007")
  = (Some 80, Some 80, Some (-5), Some 0, Some 99999, Some 80, Some 7)
  /\ (int "", int "notaport", int "_80", int "80_", int "8__0", int "+ 8",
      int "0x10", int "8 0")
     = (None, None, None, None, None, None, None, None).
Proof. split; vm_compute; reflexivity. Qed.

Example split_samples :
  split "," "a,b,,c" = ["a"; "b"; ""; "c"]
  /\ split "," "" = [""]
  /\ split1 "/" "a/b/c" = ["a"; "b/c"]
  /\ split1 "/" "abc" = ["abc"]
  /\ rsplit1 ":" "a:b:c" = ["a:b"; "c"]
  /\ rsplit1 ":" "abc" = ["abc"]
  /\ strip "  a b  " = "a b"
  /\ lower "Keep-ALIVE" = "keep-alive".
Proof. repeat split; vm_compute; reflexivity. Qed.

Example parse_samples :
  TargetGroup._parse_targets example_sockets
    " svc.local:8080/api , bad:notaport ,, unknown.host , 192.0.2.1 "
  = Ok [mkTarget "198.51.100.1" 8080 "/api" (Some "svc.local");
        mkTarget "198.51.100.2" 8080 "/api" (Some "svc.local");
        mkTarget "192.0.2.1" 80 "/" (Some "192.0.2.1")].
Proof. vm_compute; reflexivity. Qed.

(** * Round-robin selection *)

Lemma getitem_lookup {A} (l : list A) (i : Z) :
  0 <= i < Z.of_nat (length l) ->
  exists a, getitem l i = Ok a /\ l !! Z.to_nat i = Some a.
Proof.
  intros Hi. unfold getitem.
  destruct (Z.ltb_spec i 0); [lia|].
  destruct (Z.leb_spec 0 i); [|lia].
  destruct (Z.ltb_spec i (Z.of_nat (length l))); [|lia]. simpl.
  destruct (l !! Z.to_nat i) eqn:E.
  - eauto.
  - apply lookup_ge_None in E. lia.
Qed.

(** One call of [_round_robin] on a non-empty list: it returns the target
    at the stored index taken modulo the length and stores the successor,
    whatever the stored index was. *)
Lemma round_robin_step self g ts :
  ts <> [] ->
  exists t self',
    LoadBalancer._round_robin self g ts = (Ok t, self') /\
    ts !! Z.to_nat (next_index self g mod Z.of_nat (length ts)) = Some t /\
    LoadBalancer.round_robin_counters self' !! TargetGroup.name g
      = Some ((next_index self g + 1) mod Z.of_nat (length ts)) /\
    LoadBalancer.config self' = LoadBalancer.config self.
Proof.
  intros Hne.
  assert (Hlen : 0 < Z.of_nat (length ts)) by (destruct ts; [done | simpl; lia]).
  unfold LoadBalancer._round_robin.
  set (self1 := if bool_decide _ then _ else _).
  assert (Hidx : default 0 (LoadBalancer.round_robin_counters self1
                              !! TargetGroup.name g) = next_index self g).
  { unfold self1, next_index. case_bool_decide as Hc.
    - rewrite Hc. simpl. by rewrite lookup_insert_eq.
    - done. }
  assert (Hcfg : LoadBalancer.config self1 = LoadBalancer.config self).
  { unfold self1. by case_bool_decide. }
  rewrite Hidx. unfold py_mod.
  destruct (Z.eqb_spec (Z.of_nat (length ts)) 0); [lia|]. simpl.
  destruct (getitem_lookup ts (next_index self g mod Z.of_nat (length ts)))
    as (t & Hg & Hl).
  { apply Z.mod_pos_bound. lia. }
  rewrite Hg. exists t. eexists. split; [reflexivity|].
  split; [done|]. split; [|done].
  simpl. by rewrite lookup_insert_eq.
Qed.

Lemma first_or_none_cons t ts :
  LoadBalancer.first_or_none (t :: ts) = Ok (Some t).
Proof. reflexivity. Qed.

(** [select_target] under ROUND_ROBIN is [_round_robin]. *)
Lemma select_target_round_robin self g rq :
  get_load_balancing_algorithm (LoadBalancer.config self) = "ROUND_ROBIN" ->
  TargetGroup.targets g <> [] ->
  exists t self',
    LoadBalancer.select_target self g rq = (Ok (Some t), self') /\
    TargetGroup.targets g
      !! Z.to_nat (next_index self g mod Z.of_nat (length (TargetGroup.targets g)))
      = Some t /\
    next_index self' g
      = (next_index self g + 1) mod Z.of_nat (length (TargetGroup.targets g)) /\
    LoadBalancer.config self' = LoadBalancer.config self.
Proof.
  intros Halg Hne.
  destruct (round_robin_step self g _ Hne) as (t & self' & Hrr & Hl & Hc & Hcfg).
  exists t, self'. unfold LoadBalancer.select_target, TargetGroup.get_targets.
  destruct (TargetGroup.targets g) as [|t0 ts] eqn:Ets; [done|].
  rewrite Halg. simpl String.eqb. cbv iota. rewrite Hrr. simpl.
  repeat split; try done. unfold next_index at 1. by rewrite Hc.
Qed.

Lemma succ_index_nat (x : Z) (n : nat) :
  (0 < n)%nat ->
  Z.to_nat ((x + 1) mod Z.of_nat n)
  = ((Z.to_nat (x mod Z.of_nat n) + 1) mod n)%nat.
Proof.
  intros Hn. apply Nat2Z.inj.
  pose proof (Z.mod_pos_bound x (Z.of_nat n)).
  pose proof (Z.mod_pos_bound (x + 1) (Z.of_nat n)).
  rewrite Nat2Z.inj_mod, Nat2Z.inj_add, !Z2Nat.id by lia.
  by rewrite Z.add_mod_idemp_l by lia.
Qed.

(** From any balancer state, [k] consecutive round-robin selections walk
    the list cyclically, starting at the stored index modulo the length. *)
Lemma select_many_cycle k : forall self g rq,
  get_load_balancing_algorithm (LoadBalancer.config self) = "ROUND_ROBIN" ->
  TargetGroup.targets g <> [] ->
  let ts := TargetGroup.targets g in
  let c := Z.to_nat (next_index self g mod Z.of_nat (length ts)) in
  fst (select_many k self g rq)
  = map (fun j => Ok (ts !! ((c + j) mod length ts)%nat)) (seq 0 k).
Proof.
  induction k as [|k IH]; intros self g rq Halg Hne ts c; [done|].
  destruct (select_target_round_robin self g rq Halg Hne)
    as (t & self' & Hsel & Hl & Hnext & Hcfg).
  assert (Hlen : (0 < length ts)%nat)
    by (subst ts; destruct (TargetGroup.targets g); [done|simpl; lia]).
  assert (Hc : (c < length ts)%nat).
  { subst c. pose proof (Z.mod_pos_bound (next_index self g)
                           (Z.of_nat (length ts))). lia. }
  cbn [select_many]. rewrite Hsel.
  destruct (select_many k self' g rq) as [rs self''] eqn:Ek.
  cbn [fst seq map]. f_equal.
  - rewrite Nat.add_0_r, Nat.mod_small by done.
    fold ts in Hl. fold c in Hl. by rewrite Hl.
  - specialize (IH self' g rq). rewrite Ek in IH. cbn [fst] in IH.
    rewrite IH by (by rewrite ?Hcfg).
    rewrite <- seq_shift, map_map. apply map_ext. intros j.
    fold ts. rewrite Hnext. fold ts. do 2 f_equal.
    rewrite Z.mod_mod by lia.
    rewrite succ_index_nat by done. fold c.
    rewrite Nat.Div0.add_mod_idemp_l. f_equal. lia.
Qed.

Lemma lookup_all {A} (l : list A) :
  map (fun j => l !! (j mod length l)%nat) (seq 0 (length l)) = map Some l.
Proof.
  apply list_eq. intros i.
  rewrite !list_lookup_fmap.
  destruct (decide (i < length l)%nat) as [Hi|Hi].
  - rewrite lookup_seq_lt by done.
    cbn [fmap option_fmap option_map Nat.add].
    rewrite (Nat.mod_small i) by lia.
    destruct (lookup_lt_is_Some_2 l i Hi) as [a Ha]. by rewrite Ha.
  - rewrite lookup_seq_ge by lia.
    by rewrite lookup_ge_None_2 by lia.
Qed.

(** C1. For a group with a fixed non-empty list of N targets, the
    ROUND_ROBIN algorithm and a counter that has never been set for the
    group's name, N+1 consecutive calls of [select_target] return the N
    targets in list order, each once, and then the first target again. *)
Theorem round_robin_fresh_cycle self g rq :
  get_load_balancing_algorithm (LoadBalancer.config self) = "ROUND_ROBIN" ->
  TargetGroup.targets g <> [] ->
  LoadBalancer.round_robin_counters self !! TargetGroup.name g = None ->
  fst (select_many (S (length (TargetGroup.targets g))) self g rq)
  = map (fun t => Ok (Some t))
        (TargetGroup.targets g ++ take 1 (TargetGroup.targets g)).
Proof.
  intros Halg Hne Hfresh.
  rewrite select_many_cycle by done.
  unfold next_index. rewrite Hfresh. simpl default.
  set (ts := TargetGroup.targets g) in *.
  assert (Hlen : (0 < length ts)%nat) by (destruct ts; [done|simpl; lia]).
  rewrite Z.mod_0_l by lia. change (Z.to_nat 0) with 0%nat.
  rewrite seq_S, !map_app. cbn [map Nat.add].
  rewrite Nat.Div0.mod_same.
  rewrite <- (map_map (fun j => ts !! (j mod length ts)%nat) Ok).
  rewrite lookup_all, map_map. f_equal.
  destruct ts; [done|reflexivity].
Qed.

Lemma round_robin_fresh_cycle_witness :
  let self := LoadBalancer.__init__ (mkConfig "ROUND_ROBIN" 5) in
  let a := mkTarget "192.0.2.10" 8080 "/svc" (Some "a.com") in
  let b := mkTarget "192.0.2.20" 80 "/" (Some "b.com") in
  let g := TargetGroup.mk "pool" ∅ false [a; b] in
  fst (select_many 3 self g example_request)
  = [Ok (Some a); Ok (Some b); Ok (Some a)].
Proof.
  intros self a b g.
  apply (round_robin_fresh_cycle self g example_request);
    [reflexivity | discriminate | reflexivity].
Defined.

(** C3. [select_target] returns [None] exactly when the group's target
    list is empty; on a non-empty list it returns a member of the list,
    whatever the configured algorithm name and the stored counters are. *)
Theorem select_target_none_iff_empty self g rq :
  (fst (LoadBalancer.select_target self g rq) = Ok None
   <-> TargetGroup.get_targets g = [])
  /\ (TargetGroup.get_targets g <> [] ->
      exists t, fst (LoadBalancer.select_target self g rq) = Ok (Some t)
                /\ t ∈ TargetGroup.get_targets g).
Proof.
  assert (Hmem : TargetGroup.get_targets g <> [] ->
      exists t, fst (LoadBalancer.select_target self g rq) = Ok (Some t)
                /\ t ∈ TargetGroup.get_targets g).
  { intros Hne. unfold TargetGroup.get_targets in *.
    destruct (round_robin_step self g _ Hne) as (tg & self' & Hrr & Hl & _).
    apply list_elem_of_lookup_2 in Hl.
    unfold LoadBalancer.select_target, TargetGroup.get_targets.
    destruct (TargetGroup.targets g) as [|t0 ts] eqn:Ets; [done|].
    rewrite Hrr.
    repeat (match goal with |- context [if ?b then _ else _] => destruct b end);
      simpl; eauto using list_elem_of_here. }
  split; [|exact Hmem]. split.
  - intros Hnone. destruct (TargetGroup.get_targets g) eqn:E; [done|].
    destruct Hmem as (tg & Ht & _); [done|]. congruence.
  - intros He. unfold LoadBalancer.select_target. by rewrite He.
Qed.

(** * Dictionaries *)

Section DictFacts.
Context {V : Type}.
Implicit Types (d : dict V) (k : string) (v : V).

Lemma dict_get_set k k' v d :
  dict_get k (dict_set k' v d) = if String.eqb k k' then Some v else dict_get k d.
Proof.
  induction d as [|[k0 v0] d IH]; simpl.
  - done.
  - destruct (String.eqb_spec k' k0) as [->|Hne]; simpl.
    + by destruct (String.eqb_spec k k0).
    + rewrite IH. destruct (String.eqb_spec k k0) as [->|]; [|done].
      by destruct (String.eqb_spec k0 k'); [congruence|].
Qed.

Lemma dict_get_None k d : dict_get k d = None <-> k ∉ d.*1.
Proof.
  induction d as [|[k0 v0] d IH]; simpl.
  - split; [intros _; apply not_elem_of_nil | done].
  - rewrite not_elem_of_cons.
    destruct (String.eqb_spec k k0); [split; [done|tauto] | tauto].
Qed.

Lemma dict_get_Some k v d : dict_get k d = Some v -> (k, v) ∈ d.
Proof.
  induction d as [|[k0 v0] d IH]; simpl; [done|].
  destruct (String.eqb_spec k k0) as [->|].
  - intros [= ->]. apply list_elem_of_here.
  - intros H. apply list_elem_of_further. auto.
Qed.

Lemma dict_set_fresh k v d : k ∉ d.*1 -> dict_set k v d = d ++ [(k, v)].
Proof.
  induction d as [|[k0 v0] d IH]; simpl; [done|].
  rewrite not_elem_of_cons. intros [Hne Hni].
  destruct (String.eqb_spec k k0); [done|]. by rewrite IH.
Qed.

Lemma dict_get_fold k (items : list (string * V)) : forall d,
  dict_get k (fold_left (fun d kv => dict_set (fst kv) (snd kv) d) items d)
  = match last_value k items with Some v => Some v | None => dict_get k d end.
Proof.
  induction items as [|[k0 v0] r IH]; intros d; simpl; [done|].
  rewrite IH, dict_get_set.
  by destruct (last_value k r), (String.eqb k k0).
Qed.

Lemma dict_get_of_items k (items : list (string * V)) :
  dict_get k (dict_of_items items) = last_value k items.
Proof.
  unfold dict_of_items. rewrite dict_get_fold. by destruct (last_value k items).
Qed.

Lemma last_value_filter (P : string * V -> Prop) `{!forall x, Decision (P x)}
    k items :
  (forall v, P (k, v)) ->
  last_value k (filter P items) = last_value k items.
Proof.
  intros HP. induction items as [|[k0 v0] r IH]; [done|].
  rewrite filter_cons. simpl. case_decide as Hd; simpl.
  - by rewrite IH.
  - rewrite IH. destruct (String.eqb_spec k k0) as [->|].
    + by destruct (Hd (HP v0)).
    + by destruct (last_value k r).
Qed.

Lemma last_value_filter_out (P : string * V -> Prop)
    `{!forall x, Decision (P x)} k items :
  (forall v, ~ P (k, v)) -> last_value k (filter P items) = None.
Proof.
  intros HP. induction items as [|[k0 v0] r IH]; [done|].
  rewrite filter_cons. simpl. case_decide as Hd; simpl; [|done].
  rewrite IH. destruct (String.eqb_spec k k0) as [->|]; [|done].
  by destruct (HP v0).
Qed.

Lemma dict_of_items_fold_NoDup (items : list (string * V)) : forall d,
  NoDup (d.*1 ++ items.*1) ->
  fold_left (fun d kv => dict_set (fst kv) (snd kv) d) items d = d ++ items.
Proof.
  induction items as [|[k0 v0] r IH]; intros d Hnd; simpl.
  - by rewrite app_nil_r.
  - simpl in Hnd. rewrite dict_set_fresh.
    + rewrite IH.
      * by rewrite <- app_assoc.
      * rewrite fmap_app. simpl. by rewrite <- app_assoc.
    + apply NoDup_app in Hnd as (_ & Hd & _). intros Hin.
      apply (Hd _ Hin). apply list_elem_of_here.
Qed.

(** Items with pairwise distinct keys make a dictionary with exactly
    these items, in the same order. *)
Lemma dict_of_items_NoDup (items : list (string * V)) :
  NoDup items.*1 -> dict_of_items items = items.
Proof. intros H. unfold dict_of_items. by rewrite dict_of_items_fold_NoDup. Qed.

Lemma NoDup_keys_filter (P : string * V -> Prop) `{!forall x, Decision (P x)} (items : list (string * V)) :
  NoDup items.*1 -> NoDup (filter P items).*1.
Proof.
  induction items as [|kv r IH]; [done|].
  rewrite fmap_cons, NoDup_cons. intros [Hni Hnd].
  rewrite filter_cons. case_decide; [|auto].
  rewrite fmap_cons, NoDup_cons. split; [|auto].
  intros Hin. apply Hni.
  apply list_elem_of_fmap in Hin as (y & -> & Hy).
  apply list_elem_of_filter in Hy as [_ Hy].
  apply list_elem_of_fmap. eauto.
Qed.

End DictFacts.

(** * Forwarding *)



(** What the part of the [try] block before the outbound call does: it
    fails without touching the balancer, or it looks the session up and
    hands over the request it has assembled. *)
Lemma prepare_inv c self target rq path :
  (exists e, LoadBalancer.prepare c self target rq path = (Raise e, self))
  \/ (exists url data q,
        get_url c target path = Ok url
        /\ get_data rq = Ok data
        /\ decode_utf8 c (query_string rq) = Ok q
        /\ LoadBalancer.prepare c self target rq path
           = (Ok (fst (LoadBalancer._get_session self target),
                  mkOutbound (method rq)
                    (if is_empty q then url else url +:+ "?" +:+ q)
                    (LoadBalancer.outbound_headers rq) data
                    (get_connection_timeout (LoadBalancer.config self)) false),
              snd (LoadBalancer._get_session self target))).
Proof.
  unfold LoadBalancer.prepare.
  destruct (get_url c target path) as [url|e]; simpl; [|eauto].
  destruct (get_data rq) as [data|e]; simpl; [|eauto].
  destruct (decode_utf8 c (query_string rq)) as [q|e]; simpl; [|eauto].
  right. exists url, data, q.
  by destruct (LoadBalancer._get_session self target).
Qed.

(** Once the URL, the body and the query string are in hand, the answer of
    [forward_request] is decided by one call of [session.request], made on
    the target's session with the request assembled from them. *)
Lemma forward_request_call c self target rq path url data q :
  get_url c target path = Ok url ->
  get_data rq = Ok data ->
  decode_utf8 c (query_string rq) = Ok q ->
  fst (LoadBalancer.forward_request c self target rq path)
  = match session_request c (fst (LoadBalancer._get_session self target))
            (mkOutbound (method rq)
               (if is_empty q then url else url +:+ "?" +:+ q)
               (LoadBalancer.outbound_headers rq) data
               (get_connection_timeout (LoadBalancer.config self)) false)
    with
    | Ok up =>
        Ok (make_response c (content up) (status_code up)
              (dict_of_items (upstream_headers up)))
    | Raise e =>
        if isinstance e Timeout then
          Ok (handle_error c 504 "Request timeout")
        else if isinstance e ConnectionError then
          Ok (handle_error c 502 "Connection error")
        else if isinstance e Exception then
          Ok (handle_error c 502 ("Error forwarding request: " +:+ exc_str e))
        else Raise e
    end.
Proof.
  intros Hu Hd Hq.
  destruct (prepare_inv c self target rq path)
    as [[e Hp]|(url' & data' & q' & Hu' & Hd' & Hq' & Hp)].
  { unfold LoadBalancer.prepare in Hp. rewrite Hu, Hd, Hq in Hp. simpl in Hp.
    by destruct (LoadBalancer._get_session self target). }
  rewrite Hu in Hu'. rewrite Hd in Hd'. rewrite Hq in Hq'.
  injection Hu' as <-. injection Hd' as <-. injection Hq' as <-.
  unfold LoadBalancer.forward_request, LoadBalancer.forward. rewrite Hp.
  cbn [mbind result_bind fst snd].
  destruct (session_request c _ _) as [up|e]; cbn [mbind result_bind fst];
    [done|].
  by repeat (match goal with |- context [if ?b then _ else _] => destruct b end).
Qed.



Lemma ci_set_hop k0 v0 d k v :
  lower k0 ∉ HOP_BY_HOP_HEADERS -> lower k ∈ HOP_BY_HOP_HEADERS ->
  (k, v) ∈ ci_set k0 v0 d <-> (k, v) ∈ d.
Proof.
  intros H0 Hk. induction d as [|[k' v'] d IH]; simpl.
  - rewrite list_elem_of_singleton. split; [|by intros ?%elem_of_nil].
    intros [= -> ->]. done.
  - destruct (String.eqb_spec (lower k0) (lower k')) as [He|Hne].
    + rewrite !elem_of_cons. split.
      * intros [[= -> ->]|H]; [done | by right].
      * intros [[= -> ->]|H]; [by rewrite <- He in Hk | by right].
    + rewrite !elem_of_cons, IH. done.
Qed.

Lemma prepared_headers_hop session rq k v :
  lower k ∈ HOP_BY_HOP_HEADERS ->
  (k, v) ∈ prepared_headers session (LoadBalancer.outbound_headers rq)
  <-> (k, v) ∈ session_headers session.
Proof.
  intros Hk. unfold prepared_headers.
  assert (Hout : Forall (fun kv => lower (fst kv) ∉ HOP_BY_HOP_HEADERS)
                        (LoadBalancer.outbound_headers rq)).
  { apply Forall_forall. intros [k0 v0] Hin Hhop. cbn [fst] in Hhop.
    assert (Hget : dict_get k0 (LoadBalancer.outbound_headers rq) = None).
    { unfold LoadBalancer.outbound_headers. rewrite dict_get_of_items.
      apply last_value_filter_out. simpl. tauto. }
    apply dict_get_None in Hget. apply Hget.
    apply list_elem_of_fmap. by exists (k0, v0). }
  revert Hout. generalize (LoadBalancer.outbound_headers rq).
  generalize (session_headers session).
  intros d hs. revert d. induction hs as [|[k0 v0] hs IH]; intros d Hall.
  - done.
  - apply Forall_cons in Hall as [H0 Hall]. cbn [fold_left fst snd].
    rewrite IH by done. by apply ci_set_hop.
Qed.

(** C4 as stated fails: the request that the session prepares from the
    headers [forward_request] hands over does carry a header named
    connection, the session's own [Connection: keep-alive]. *)
Lemma outbound_connection_counterexample :
  ~ (forall self target rq k v,
       (k, v) ∈ prepared_headers (fst (LoadBalancer._get_session self target))
                  (LoadBalancer.outbound_headers rq) ->
       lower k ∉ HOP_BY_HOP_HEADERS).
Proof.
  intros H.
  apply (H (LoadBalancer.__init__ (mkConfig "ROUND_ROBIN" 5)) example_target
           example_request "Connection" "keep-alive").
  - apply prepared_headers_hop; [vm_compute; set_solver|].
    vm_compute. set_solver.
  - vm_compute. set_solver.
Qed.

(** C4, amended. Once the URL, the body and the query string are in hand,
    [forward_request] calls [session.request] with a headers dictionary
    that holds no name whose lower-cased form is connection, keep-alive or
    transfer-encoding, whatever the inbound casing, and that gives every
    other inbound name the value the inbound headers give it; for pairwise
    distinct inbound names it consists of exactly the other inbound
    headers, in order.  The answer of [forward_request] is the upstream's
    reaction to the request with these headers.  In the request that the
    session prepares from them, a header with one of the three names is
    one of the session's own headers, never an inbound one. *)
Theorem outbound_headers_hop_by_hop c self target rq path url data q :
  get_url c target path = Ok url ->
  get_data rq = Ok data ->
  decode_utf8 c (query_string rq) = Ok q ->
  let session := fst (LoadBalancer._get_session self target) in
  let out := LoadBalancer.outbound_headers rq in
  let o := mkOutbound (method rq)
             (if is_empty q then url else url +:+ "?" +:+ q) out data
             (get_connection_timeout (LoadBalancer.config self)) false in
  (forall up, session_request c session o = Ok up ->
     fst (LoadBalancer.forward_request c self target rq path)
     = Ok (make_response c (content up) (status_code up)
             (dict_of_items (upstream_headers up))))
  /\ (forall k v, (k, v) ∈ out ->
        lower k <> "connection" /\ lower k <> "keep-alive"
        /\ lower k <> "transfer-encoding")
  /\ (forall k, lower k ∈ HOP_BY_HOP_HEADERS -> dict_get k out = None)
  /\ (forall k, lower k ∉ HOP_BY_HOP_HEADERS ->
        dict_get k out = dict_get k (dict_of_items (headers rq)))
  /\ (NoDup (headers rq).*1 ->
      out = filter (fun kv => lower (fst kv) ∉ HOP_BY_HOP_HEADERS) (headers rq))
  /\ (forall k v, lower k ∈ HOP_BY_HOP_HEADERS ->
        (k, v) ∈ prepared_headers session out
        <-> (k, v) ∈ session_headers session).
Proof.
  intros Hu Hd Hq session out o.
  assert (Hhop : forall k, lower k ∈ HOP_BY_HOP_HEADERS -> dict_get k out = None).
  { intros k Hk. unfold out, LoadBalancer.outbound_headers.
    rewrite dict_get_of_items.
    apply last_value_filter_out. simpl. tauto. }
  split.
  { intros up Hup. rewrite (forward_request_call _ _ _ _ _ _ _ _ Hu Hd Hq).
    fold session. fold out. fold o. by rewrite Hup. }
  split.
  { intros k v Hin.
    assert (Hk : lower k ∉ HOP_BY_HOP_HEADERS).
    { intros Hk. specialize (Hhop k Hk). apply dict_get_None in Hhop.
      apply Hhop. apply list_elem_of_fmap. by exists (k, v). }
    unfold HOP_BY_HOP_HEADERS in Hk. set_solver. }
  split; [done|]. split.
  { intros k Hk. unfold out, LoadBalancer.outbound_headers.
    rewrite !dict_get_of_items.
    by apply last_value_filter. }
  split.
  { intros Hnd. unfold out, LoadBalancer.outbound_headers.
    apply dict_of_items_NoDup. by apply NoDup_keys_filter. }
  intros k v Hk. by apply prepared_headers_hop.
Qed.

Lemma outbound_headers_hop_by_hop_witness :
  let self := LoadBalancer.__init__ (mkConfig "ROUND_ROBIN" 5) in
  fst (LoadBalancer.forward_request inspecting_collaborators self
         example_target example_request "/p")
  = Ok (mkResponse "ok" 200 [])
  /\ LoadBalancer.outbound_headers example_request
     = [("Host", "lb.example"); ("X-Token", "s3")]
  /\ (forall k v, lower k ∈ HOP_BY_HOP_HEADERS ->
        (k, v) ∈ prepared_headers LoadBalancer.new_session
                   (LoadBalancer.outbound_headers example_request)
        <-> (k, v) ∈ LoadBalancer.default_headers).
Proof.
  intros self.
  destruct (outbound_headers_hop_by_hop inspecting_collaborators self
              example_target example_request "/p"
              "http://192.0.2.10:8080/svc/p" "" "" eq_refl eq_refl eq_refl)
    as (Hcall & _ & _ & _ & Hitems & Hwire).
  split; [exact (Hcall (mkUpstream "ok" 200 []) eq_refl)|].
  split; [|exact Hwire].
  rewrite Hitems; [reflexivity|].
  apply (bool_decide_unpack (NoDup (headers example_request).*1)).
  vm_compute. exact I.
Defined.




Example forward_request_samples :
  let lb := LoadBalancer.__init__ (mkConfig "ROUND_ROBIN" 5) in
  let answer e :=
    fst (LoadBalancer.forward_request (upstream_raises e) lb example_target
           example_request "/p") in
  answer (mkExn ReadTimeout "read timed out")
  = Ok (mkResponse "Request timeout" 504 [])
  /\ answer (mkExn ConnectTimeout "connect timed out")
     = Ok (mkResponse "Request timeout" 504 [])
  /\ answer (mkExn ConnectionError "connection refused")
     = Ok (mkResponse "Connection error" 502 [])
  /\ answer (mkExn (OtherException "TypeError") "boom")
     = Ok (mkResponse "Error forwarding request: boom" 502 [])
  /\ answer (mkExn KeyboardInterrupt "") = Raise (mkExn KeyboardInterrupt "")
  /\ fst (LoadBalancer.forward_request example_collaborators lb example_target
            example_request "/p")
     = Ok (mkResponse "" 200 []).
Proof. repeat split; vm_compute; reflexivity. Qed.

(** * Splitting entries *)

Lemma contains_app c a b :
  contains c (a +:+ b) = contains c a || contains c b.
Proof.
  induction a as [|d a IH]; simpl; [done|].
  rewrite IH. by rewrite orb_assoc.
Qed.

Lemma split1_first c a r :
  contains c a = false -> split1 c (a +:+ String c r) = [a; r].
Proof.
  induction a as [|d a IH]; simpl.
  - by rewrite Ascii.eqb_refl.
  - intros H. apply orb_false_iff in H as [Hd Ha].
    rewrite Hd, IH by done. done.
Qed.

Lemma split1_contains c s :
  contains c s = true ->
  exists a b, split1 c s = [a; b] /\ s = a +:+ String c b
              /\ contains c a = false.
Proof.
  induction s as [|d s IH]; simpl; [done|].
  destruct (Ascii.eqb_spec d c) as [->|Hne]; simpl.
  - intros _. by exists EmptyString, s.
  - intros H. destruct (IH H) as (a & b & -> & -> & Ha).
    exists (String d a), b. simpl.
    destruct (Ascii.eqb_spec d c); [done|]. by rewrite Ha.
Qed.

Lemma rsplit1_contains c s :
  contains c s = true ->
  exists a b, rsplit1 c s = [a; b] /\ s = a +:+ String c b
              /\ contains c b = false.
Proof.
  induction s as [|d s IH]; simpl; [done|].
  destruct (contains c s) eqn:Hs.
  - intros _. destruct (IH eq_refl) as (a & b & -> & -> & Hb).
    by exists (String d a), b.
  - rewrite orb_false_r. intros Hd. rewrite Hd.
    apply Ascii.eqb_eq in Hd as ->. by exists EmptyString, s.
Qed.

Lemma split_base_uri_ok spec :
  exists a uri, TargetGroup.split_base_uri spec = Ok (a, uri).
Proof.
  unfold TargetGroup.split_base_uri.
  destruct (contains "/" spec) eqn:Hc; [|eauto].
  destruct (split1_contains _ _ Hc) as (a & b & -> & _). simpl. eauto.
Qed.

Lemma split_port_ok a :
  exists hp, TargetGroup.split_port a = Ok hp.
Proof.
  unfold TargetGroup.split_port.
  destruct (contains ":" a) eqn:Hc; [|eauto].
  destruct (rsplit1_contains _ _ Hc) as (h & p & -> & _).
  destruct (int p); eauto.
Qed.

(** * Parsing a specification string *)

Lemma parse_specs_cons sk spec rest acc :
  TargetGroup.parse_specs sk (spec :: rest) acc
  = new ← entry_targets sk spec; TargetGroup.parse_specs sk rest (acc ++ new).
Proof.
  unfold entry_targets. cbn [TargetGroup.parse_specs].
  destruct (is_empty spec); simpl; [by rewrite app_nil_r|].
  destruct (TargetGroup.split_base_uri spec) as [ab|]; simpl; [|done].
  destruct (TargetGroup.split_port ab.1) as [[[h p]|]|]; simpl; [| |done].
  - by destruct (TargetGroup._resolve_dns sk h).
  - by rewrite app_nil_r.
Qed.

(** The loop succeeds exactly when every entry does, and then the list is
    the concatenation of what the entries add, in entry order. *)
Lemma parse_specs_ok sk specs : forall acc ts,
  TargetGroup.parse_specs sk specs acc = Ok ts <->
  exists news, Forall2 (fun spec new => entry_targets sk spec = Ok new) specs news
               /\ ts = acc ++ concat news.
Proof.
  induction specs as [|spec rest IH]; intros acc ts.
  - simpl. split.
    + intros [= <-]. exists []. split; [constructor|]. by rewrite app_nil_r.
    + intros (news & Hf & ->). inversion Hf. simpl. by rewrite app_nil_r.
  - rewrite parse_specs_cons. split.
    + destruct (entry_targets sk spec) as [new|] eqn:He; simpl; [|done].
      intros H. apply IH in H as (news & Hf & ->).
      exists (new :: news). split; [by constructor|].
      simpl. by rewrite app_assoc.
    + intros (news & Hf & ->). inversion Hf as [|? new ? news' He Hf']; subst.
      rewrite He. simpl. apply IH. exists news'. split; [done|].
      simpl. by rewrite app_assoc.
Qed.

Lemma parse_targets_ok sk s ts :
  TargetGroup._parse_targets sk s = Ok ts <->
  (s = EmptyString /\ ts = []) \/
  (s <> EmptyString /\
   exists news, Forall2 (fun spec new => entry_targets sk spec = Ok new)
                        (entries s) news
                /\ ts = concat news).
Proof.
  unfold TargetGroup._parse_targets. destruct s as [|c s]; simpl is_empty; cbv iota.
  - split; [intros [= <-]; by left | intros [[_ ->]|[? _]]; done].
  - rewrite parse_specs_ok. simpl app. split.
    + intros H. by right.
    + intros [[? _]|[_ H]]; done.
Qed.

Lemma parse_targets_entries sk s :
  TargetGroup._parse_targets sk s = TargetGroup.parse_specs sk (entries s) [].
Proof. unfold TargetGroup._parse_targets, entries. by destruct s. Qed.

(** An entry with a port that [int] rejects adds nothing. *)
Lemma entry_bad_port sk spec a uri host port_str :
  spec <> EmptyString ->
  TargetGroup.split_base_uri spec = Ok (a, uri) ->
  rsplit1 ":" a = [host; port_str] -> contains ":" a = true ->
  int port_str = None ->
  entry_targets sk spec = Ok [].
Proof.
  intros Hne Hs Hr Hc Hi. unfold entry_targets.
  destruct spec; [done|]. simpl is_empty. cbv iota.
  rewrite Hs. simpl. unfold TargetGroup.split_port. by rewrite Hc, Hr, Hi.
Qed.

(** A host whose resolution fails with [gaierror] has no addresses. *)
Lemma resolve_dns_gaierror sk h e e' :
  inet_aton sk h = Raise e -> isinstance e OSError = true ->
  getaddrinfo sk h = Raise e' -> isinstance e' gaierror = true ->
  TargetGroup._resolve_dns sk h = Ok [].
Proof.
  intros H1 H2 H3 H4. unfold TargetGroup._resolve_dns. by rewrite H1, H2, H3, H4.
Qed.

Lemma resolve_dns_handled sk h :
  handled_failures sk -> exists ips, TargetGroup._resolve_dns sk h = Ok ips.
Proof.
  intros [Ha Hg]. unfold TargetGroup._resolve_dns.
  destruct (inet_aton sk h) as [|e] eqn:E1; [eauto|].
  rewrite (Ha _ _ E1).
  destruct (getaddrinfo sk h) as [|e'] eqn:E2; [eauto|].
  rewrite (Hg _ _ E2). eauto.
Qed.

Lemma entry_targets_handled sk spec :
  handled_failures sk -> exists new, entry_targets sk spec = Ok new.
Proof.
  intros Hh. unfold entry_targets.
  destruct (is_empty spec); [eauto|].
  destruct (split_base_uri_ok spec) as (a & uri & ->). simpl.
  destruct (split_port_ok a) as ([[h p]|] & ->); simpl; [|eauto].
  destruct (resolve_dns_handled sk h Hh) as (ips & ->). simpl. eauto.
Qed.

(** When the socket calls fail only with the exceptions that
    [_resolve_dns] handles, construction succeeds on every specification
    string, and the group's targets are what the entries add one by one. *)
Lemma init_handled sk name s w :
  handled_failures sk ->
  exists g, TargetGroup.__init__ sk name s w = Ok g.
Proof.
  intros Hh. unfold TargetGroup.__init__.
  assert (exists ts, TargetGroup._parse_targets sk s = Ok ts) as [ts ->].
  { destruct (decide (s = EmptyString)) as [->|Hne].
    - exists []. by apply parse_targets_ok; left.
    - assert (forall specs, exists news,
                Forall2 (fun spec new => entry_targets sk spec = Ok new) specs news)
        as Hall.
      { induction specs as [|spec specs [news IH]]; [exists []; constructor|].
        destruct (entry_targets_handled sk spec Hh) as [new Hn].
        exists (new :: news). by constructor. }
      destruct (Hall (entries s)) as [news Hn].
      exists (concat news). apply parse_targets_ok. right. eauto. }
  simpl. eauto.
Qed.

(** C6. With a.com and b.com each resolving to one address, the string
    "a.com:8080/svc,b.com/" parses to exactly two targets: port 8080 and
    base URI "/svc" for a.com, port 80 and base URI "/" for b.com.  In
    general the first slash separates the address from the base URI, an
    empty rest after it gives the base URI "/", and an address without a
    colon gets port 80. *)
Theorem parse_two_entries sk ipa ipb :
  TargetGroup._resolve_dns sk "a.com" = Ok [ipa] ->
  TargetGroup._resolve_dns sk "b.com" = Ok [ipb] ->
  TargetGroup._parse_targets sk "a.com:8080/svc,b.com/"
  = Ok [mkTarget ipa 8080 "/svc" (Some "a.com");
        mkTarget ipb 80 "/" (Some "b.com")]
  /\ (forall a r, contains "/" a = false ->
        TargetGroup.split_base_uri (a +:+ String "/" r)
        = Ok (a, if is_empty r then "/" else "/" +:+ r))
  /\ (forall spec, contains "/" spec = false ->
        TargetGroup.split_base_uri spec = Ok (spec, "/"))
  /\ (forall a, contains ":" a = false ->
        TargetGroup.split_port a = Ok (Some (a, 80))).
Proof.
  intros Ha Hb. split; [|split; [|split]].
  - unfold TargetGroup._parse_targets. simpl is_empty. cbv iota.
    replace (map strip (split "," "a.com:8080/svc,b.com/"))
      with ["a.com:8080/svc"; "b.com/"] by (vm_compute; reflexivity).
    rewrite parse_specs_cons. unfold entry_targets.
    replace (TargetGroup.split_base_uri "a.com:8080/svc")
      with (Ok ("a.com:8080", "/svc") : result _) by (vm_compute; reflexivity).
    cbn [is_empty mbind result_bind fst snd].
    replace (TargetGroup.split_port "a.com:8080")
      with (Ok (Some ("a.com", 8080)) : result _) by (vm_compute; reflexivity).
    cbn [mbind result_bind]. rewrite Ha. cbn [mbind result_bind map app].
    rewrite parse_specs_cons. unfold entry_targets.
    replace (TargetGroup.split_base_uri "b.com/")
      with (Ok ("b.com", "/") : result _) by (vm_compute; reflexivity).
    cbn [is_empty mbind result_bind fst snd].
    replace (TargetGroup.split_port "b.com")
      with (Ok (Some ("b.com", 80)) : result _) by (vm_compute; reflexivity).
    cbn [mbind result_bind]. rewrite Hb. reflexivity.
  - intros a r Hc. unfold TargetGroup.split_base_uri.
    rewrite contains_app, Hc. cbn [contains orb]. rewrite Ascii.eqb_refl.
    cbn [orb]. by rewrite split1_first.
  - intros spec Hc. unfold TargetGroup.split_base_uri. by rewrite Hc.
  - intros a Hc. unfold TargetGroup.split_port. by rewrite Hc.
Qed.

Lemma parse_two_entries_witness :
  TargetGroup._parse_targets example_sockets "a.com:8080/svc,b.com/"
  = Ok [mkTarget "192.0.2.10" 8080 "/svc" (Some "a.com");
        mkTarget "192.0.2.20" 80 "/" (Some "b.com")].
Proof.
  apply (parse_two_entries example_sockets "192.0.2.10" "192.0.2.20");
    vm_compute; reflexivity.
Defined.

(** C9 as stated fails: nothing checks the range of a parsed port, so the
    entry "192.0.2.1:0" yields a target with port 0.  Lines 62-71 have
    computed this port before any [Target] is built, and [Target] is
    handed it as it is. *)
Lemma port_range_counterexample :
  ~ (forall sk s ts,
       TargetGroup._parse_targets sk s = Ok ts ->
       Forall (fun t => 1 <= port t <= 65535) ts).
Proof.
  intros H.
  specialize (H example_sockets "192.0.2.1:0"
                [mkTarget "192.0.2.1" 0 "/" (Some "192.0.2.1")]).
  assert (Hp : TargetGroup._parse_targets example_sockets "192.0.2.1:0"
               = Ok [mkTarget "192.0.2.1" 0 "/" (Some "192.0.2.1")])
    by (vm_compute; reflexivity).
  specialize (H Hp). inversion H as [|? ? Hport _]; subst.
  simpl in Hport. lia.
Qed.

Example ports_computed_unchecked :
  TargetGroup.split_port "192.0.2.1:0" = Ok (Some ("192.0.2.1", 0))
  /\ TargetGroup.split_port "192.0.2.1:-5" = Ok (Some ("192.0.2.1", -5))
  /\ TargetGroup.split_port "192.0.2.1:70000" = Ok (Some ("192.0.2.1", 70000)).
Proof. repeat split; vm_compute; reflexivity. Qed.

Lemma entry_targets_port sk spec new :
  entry_targets sk spec = Ok new ->
  Forall (fun t => port_of_entry spec (port t)
                   /\ exists h, host_of_entry spec h /\ hostname t = Some h)
         new.
Proof.
  unfold entry_targets.
  destruct (is_empty spec); [by intros [= <-]|].
  destruct (TargetGroup.split_base_uri spec) as [[a uri]|] eqn:Hs; simpl; [|done].
  unfold TargetGroup.split_port.
  destruct (contains ":" a) eqn:Hc.
  - destruct (rsplit1_contains _ _ Hc) as (h & ps & Hr & _). rewrite Hr.
    destruct (int ps) as [p|] eqn:Hi; simpl; [|by intros [= <-]].
    destruct (TargetGroup._resolve_dns sk h) as [ips|]; simpl; [|done].
    intros [= <-]. apply Forall_fmap, Forall_forall. intros ip _. simpl.
    split.
    + exists a, uri. split; [done|]. right. split; [done|]. eauto.
    + exists h. split; [|done]. exists a, uri. split; [done|]. right. eauto.
  - simpl.
    destruct (TargetGroup._resolve_dns sk a) as [ips|]; simpl; [|done].
    intros [= <-]. apply Forall_fmap, Forall_forall. intros ip _. simpl.
    split.
    + exists a, uri. split; [done|]. by left.
    + exists a. split; [|done]. exists a, uri. split; [done|]. by left.
Qed.

(** C9, amended. Every target that parsing emits has the port of its own
    entry: the parsed list is made of one block of targets per entry of
    the string, in entry order, and every target of an entry's block
    carries that entry's host name and that entry's port, which is 80 when
    the entry's address part has no colon and otherwise the integer that
    [int] reads after the last colon, whatever its value. *)
Theorem parsed_port_of_entry sk s ts :
  TargetGroup._parse_targets sk s = Ok ts ->
  exists blocks,
    ts = concat blocks
    /\ Forall2
         (fun spec block =>
            Forall (fun t => port_of_entry spec (port t)
                             /\ exists h, host_of_entry spec h
                                          /\ hostname t = Some h)
                   block)
         (entries s) blocks.
Proof.
  rewrite (parse_targets_entries sk s). intros H.
  apply parse_specs_ok in H as (news & Hf & ->).
  exists news. split; [done|].
  induction Hf as [|spec new specs news He Hf IH]; constructor; [|done].
  exact (entry_targets_port sk spec new He).
Qed.

Lemma parsed_port_of_entry_witness :
  exists blocks,
    [mkTarget "198.51.100.1" 0 "/" (Some "svc.local");
     mkTarget "198.51.100.2" 0 "/" (Some "svc.local");
     mkTarget "192.0.2.20" 80 "/" (Some "b.com")] = concat blocks
    /\ Forall2
         (fun spec block =>
            Forall (fun t => port_of_entry spec (port t)
                             /\ exists h, host_of_entry spec h
                                          /\ hostname t = Some h)
                   block)
         (entries "svc.local:0, b.com") blocks.
Proof.
  apply (parsed_port_of_entry example_sockets "svc.local:0, b.com").
  vm_compute; reflexivity.
Defined.

(** C5, at two inputs where the code raises.  For the host "a..b"
    [inet_aton] fails with [OSError], which is handled, and [getaddrinfo]
    then fails with [UnicodeError], which is not: construction raises and
    the targets of the sibling entry are lost.  For a host with an embedded
    null character [inet_aton] itself fails with [ValueError]. *)
Theorem init_raises_on_unhandled_failure :
  TargetGroup.__init__ example_sockets "pool" "192.0.2.1:8080,a..b:80" None
  = Raise (mkExn UnicodeError "encoding with 'idna' codec failed")
  /\ TargetGroup.__init__ example_sockets "pool"
       ("192.0.2.1:8080,a" +:+ String "000" "b:80") None
     = Raise (mkExn ValueError "embedded null character").
Proof. split; vm_compute; reflexivity. Qed.

(** C7. A group constructed without a weights argument has an empty
    weighted list although every host name has weight 1; that no weights
    were given is recorded in a flag, which tells the group apart from one
    constructed with an empty dictionary and hence the same weights. *)
Theorem no_weights_no_expansion sk name s g :
  TargetGroup.__init__ sk name s None = Ok g ->
  TargetGroup.get_weighted_target_list g = []
  /\ (forall h, TargetGroup.get_weight g h = 1)
  /\ TargetGroup._weights_provided g = false
  /\ (forall g', TargetGroup.__init__ sk name s (Some ∅) = Ok g' ->
        TargetGroup.weights g' = TargetGroup.weights g
        /\ TargetGroup._weights_provided g' = true).
Proof.
  unfold TargetGroup.__init__.
  destruct (TargetGroup._parse_targets sk s) as [ts|]; simpl; [|done].
  intros [= <-]. split; [reflexivity|]. split.
  { intros h. unfold TargetGroup.get_weight. simpl. by rewrite lookup_empty. }
  split; [reflexivity|]. intros g' [= <-]. by split.
Qed.

Lemma no_weights_no_expansion_witness :
  exists g,
    TargetGroup.__init__ example_sockets "pool" "svc.local:8080/api,b.com" None
    = Ok g
    /\ g = TargetGroup.mk "pool" ∅ false
             [mkTarget "198.51.100.1" 8080 "/api" (Some "svc.local");
              mkTarget "198.51.100.2" 8080 "/api" (Some "svc.local");
              mkTarget "192.0.2.20" 80 "/" (Some "b.com")]
    /\ TargetGroup.get_weighted_target_list g = []
    /\ TargetGroup.get_weight g "svc.local" = 1.
Proof.
  eexists. split; [vm_compute; reflexivity|]. split; [reflexivity|].
  edestruct (no_weights_no_expansion example_sockets "pool"
               "svc.local:8080/api,b.com") as (H1 & H2 & _);
    [vm_compute; reflexivity|].
  split; [exact H1 | exact (H2 "svc.local")].
Defined.

(** * The weighted expansion *)

Lemma first_seen_snoc ks k :
  first_seen (ks ++ [k])
  = if bool_decide (k ∈ first_seen ks) then first_seen ks
    else first_seen ks ++ [k].
Proof. unfold first_seen. by rewrite fold_left_app. Qed.

Lemma first_seen_elem_of ks k : k ∈ first_seen ks <-> k ∈ ks.
Proof.
  induction ks as [|k0 ks IH] using rev_ind.
  - done.
  - rewrite first_seen_snoc, elem_of_app, list_elem_of_singleton.
    case_bool_decide as Hd.
    + rewrite IH. split; [tauto|]. intros [H| ->]; [done|]. by apply IH.
    + rewrite elem_of_app, list_elem_of_singleton, IH. tauto.
Qed.

Lemma first_seen_NoDup ks : NoDup (first_seen ks).
Proof.
  induction ks as [|k0 ks IH] using rev_ind.
  - constructor.
  - rewrite first_seen_snoc. case_bool_decide as Hd; [done|].
    apply NoDup_app. split; [done|]. split; [|apply NoDup_singleton].
    intros x Hx Hx0. apply list_elem_of_singleton in Hx0. by subst.
Qed.

Section Grouping.
Context {V : Type}.
Implicit Types (f : string -> V) (L : list string).

Lemma dict_get_tabulate f L k :
  dict_get k (map (fun h => (h, f h)) L)
  = if bool_decide (k ∈ L) then Some (f k) else None.
Proof.
  induction L as [|h L IH]; simpl.
  - done.
  - destruct (String.eqb_spec k h) as [->|Hne].
    + by rewrite bool_decide_eq_true_2 by apply list_elem_of_here.
    + rewrite IH. case_bool_decide as H1; case_bool_decide as H2; try done.
      * exfalso. apply H2. by apply list_elem_of_further.
      * apply elem_of_cons in H2 as [?|?]; done.
Qed.

Lemma dict_set_tabulate f L k v :
  NoDup L -> k ∈ L ->
  dict_set k v (map (fun h => (h, f h)) L)
  = map (fun h => (h, if String.eqb h k then v else f h)) L.
Proof.
  induction L as [|h L IH]; simpl; [by intros _ ?%elem_of_nil|].
  rewrite NoDup_cons, elem_of_cons. intros [Hni Hnd] Hin.
  destruct (String.eqb_spec k h) as [->|Hne].
  - rewrite String.eqb_refl. f_equal.
    apply map_ext_in. intros h' Hh'%list_elem_of_In.
    destruct (String.eqb_spec h' h) as [->|]; done.
  - destruct (String.eqb_spec h k); [congruence|].
    f_equal. apply IH; [done|]. by destruct Hin.
Qed.

Lemma dict_set_last (d : dict V) k v v' :
  dict_get k d = None -> dict_set k v' (d ++ [(k, v)]) = d ++ [(k, v')].
Proof.
  induction d as [|[k0 v0] d IH]; simpl.
  - by rewrite String.eqb_refl.
  - destruct (String.eqb_spec k k0); [done|]. intros H. by rewrite IH.
Qed.

Lemma dict_get_last (d : dict V) k v :
  dict_get k d = None -> dict_get k (d ++ [(k, v)]) = Some v.
Proof.
  induction d as [|[k0 v0] d IH]; simpl.
  - by rewrite String.eqb_refl.
  - destruct (String.eqb_spec k k0); [done|]. apply IH.
Qed.

End Grouping.

Lemma targets_of_snoc h ts t :
  targets_of h (ts ++ [t])
  = targets_of h ts
    ++ (if String.eqb (TargetGroup.hostname_or_ip t) h then [t] else []).
Proof.
  unfold targets_of. rewrite filter_app. f_equal.
  rewrite filter_cons, filter_nil.
  case_decide as Hd; destruct (String.eqb_spec (TargetGroup.hostname_or_ip t) h);
    done.
Qed.

Lemma targets_of_no_key h ts :
  h ∉ map TargetGroup.hostname_or_ip ts -> targets_of h ts = [].
Proof.
  induction ts as [|t ts IH]; [done|]. simpl.
  rewrite not_elem_of_cons. intros [Hne Hni].
  unfold targets_of. rewrite filter_cons. case_decide; [congruence|].
  by apply IH.
Qed.

(** The first loop of [get_weighted_target_list] files every target under
    its key; the keys come in the order of their first occurrence and each
    key holds its targets in list order. *)
Lemma group_by_hostname_spec ts :
  TargetGroup.group_by_hostname ts
  = map (fun h => (h, targets_of h ts))
        (first_seen (map TargetGroup.hostname_or_ip ts)).
Proof.
  induction ts as [|t ts IH] using rev_ind; [done|].
  unfold TargetGroup.group_by_hostname in *.
  rewrite fold_left_app, IH. cbn [fold_left].
  rewrite map_app. cbn [map]. rewrite first_seen_snoc.
  set (k := TargetGroup.hostname_or_ip t).
  set (L := first_seen (map TargetGroup.hostname_or_ip ts)).
  pose proof (first_seen_NoDup (map TargetGroup.hostname_or_ip ts)) as Hnd.
  fold L in Hnd.
  unfold dict_in. rewrite dict_get_tabulate.
  case_bool_decide as Hin; cbn [negb].
  - rewrite dict_get_tabulate, bool_decide_eq_true_2 by done. cbn [default].
    rewrite dict_set_tabulate by done.
    apply map_ext. intros h. f_equal. rewrite targets_of_snoc. fold k.
    rewrite (String.eqb_sym h k).
    destruct (String.eqb_spec k h) as [->|]; [done|]. by rewrite app_nil_r.
  - assert (Hnone : dict_get k (map (fun h => (h, targets_of h ts)) L) = None).
    { by rewrite dict_get_tabulate, bool_decide_eq_false_2. }
    rewrite (dict_set_fresh k []) by (by apply dict_get_None).
    rewrite dict_get_last, dict_set_last by done. cbn [default app].
    rewrite map_app. cbn [map]. f_equal.
    + apply map_ext_in. intros h Hh%list_elem_of_In. f_equal.
      rewrite targets_of_snoc. fold k.
      destruct (String.eqb_spec k h) as [->|]; [done|]. by rewrite app_nil_r.
    + rewrite targets_of_snoc. fold k. rewrite String.eqb_refl.
      rewrite targets_of_no_key; [done|].
      intros Hk. apply Hin. by apply first_seen_elem_of.
Qed.

Lemma copies_comm n block : copies n block ++ block = block ++ copies n block.
Proof.
  unfold copies. induction n as [|n IH]; simpl.
  - by rewrite app_nil_r.
  - by rewrite <- app_assoc, IH.
Qed.

Lemma iter_extend n block acc :
  Nat.iter n (fun l => l ++ block) acc = acc ++ copies n block.
Proof.
  induction n as [|n IH]; simpl.
  - by rewrite app_nil_r.
  - rewrite IH, <- app_assoc. f_equal. apply copies_comm.
Qed.

Lemma fold_left_extend {A} (n : A -> nat) (F : A -> list Target) items :
  forall acc,
  fold_left (fun wl item => Nat.iter (n item) (fun l => l ++ F item) wl)
            items acc
  = acc ++ flat_map (fun item => copies (n item) (F item)) items.
Proof.
  induction items as [|x items IH]; intros acc; simpl.
  - by rewrite app_nil_r.
  - by rewrite IH, iter_extend, app_assoc.
Qed.

(** The weighted list of a group with weights: one block per key, in the
    order in which the keys are first met, and in each block the key's
    targets repeated as many times as its weight says. *)
Lemma weighted_list_spec g :
  TargetGroup._weights_provided g = true ->
  TargetGroup.get_weighted_target_list g
  = flat_map (fun h => copies (Z.to_nat (TargetGroup.get_weight g h))
                              (targets_of h (TargetGroup.targets g)))
             (first_seen (map TargetGroup.hostname_or_ip (TargetGroup.targets g))).
Proof.
  intros Hp. unfold TargetGroup.get_weighted_target_list. rewrite Hp. cbn [negb].
  rewrite group_by_hostname_spec.
  rewrite (fold_left_extend
             (fun item => Z.to_nat (TargetGroup.get_weight g (fst item))) snd).
  cbn [app].
  rewrite flat_map_concat_map, map_map. cbn [fst snd].
  by rewrite <- flat_map_concat_map.
Qed.

Lemma targets_of_none h l :
  Forall (fun t => TargetGroup.hostname_or_ip t <> h) l -> targets_of h l = [].
Proof.
  induction 1 as [|t l Ht _ IH]; [done|].
  unfold targets_of. rewrite filter_cons. by case_decide.
Qed.

Lemma targets_of_key h ts :
  Forall (fun t => TargetGroup.hostname_or_ip t = h) (targets_of h ts).
Proof.
  apply Forall_forall. intros t Ht.
  by apply list_elem_of_filter in Ht as [Ht _].
Qed.

Lemma Forall_copies (P : Target -> Prop) n block :
  Forall P block -> Forall P (copies n block).
Proof.
  intros H. unfold copies. induction n as [|n IH]; simpl; [constructor|].
  by apply Forall_app.
Qed.

(** The blocks of other keys hold no target of the key [h]. *)
Lemma targets_of_other_blocks h (n : string -> nat) ts L :
  h ∉ L ->
  targets_of h (flat_map (fun k => copies (n k) (targets_of k ts)) L) = [].
Proof.
  intros Hni. apply targets_of_none, Forall_forall.
  intros t Ht%list_elem_of_In. apply in_flat_map in Ht as (k & Hk & Ht).
  apply list_elem_of_In in Hk, Ht.
  pose proof (Forall_copies _ (n k) _ (targets_of_key k ts)) as Hall.
  rewrite Forall_forall in Hall. rewrite (Hall _ Ht). by intros ->.
Qed.

(** C8. In a group constructed with weights, a host name of weight 3 with
    exactly two targets contributes six entries to the weighted list: its
    two targets three times over, next to each other; no other entry of
    the list belongs to it.  The list as a whole is one such block per host
    name, in the order in which the host names are first met. *)
Theorem weighted_list_weight_three g h t1 t2 :
  TargetGroup._weights_provided g = true ->
  TargetGroup.weights g !! h = Some 3 ->
  targets_of h (TargetGroup.targets g) = [t1; t2] ->
  TargetGroup.get_weighted_target_list g
  = flat_map (fun k => copies (Z.to_nat (TargetGroup.get_weight g k))
                              (targets_of k (TargetGroup.targets g)))
             (first_seen (map TargetGroup.hostname_or_ip (TargetGroup.targets g)))
  /\ exists before after,
       TargetGroup.get_weighted_target_list g
       = before ++ [t1; t2; t1; t2; t1; t2] ++ after
       /\ targets_of h before = [] /\ targets_of h after = [].
Proof.
  intros Hp Hw Ht. split; [by apply weighted_list_spec|].
  rewrite weighted_list_spec by done.
  set (ts := TargetGroup.targets g) in *.
  set (L := first_seen (map TargetGroup.hostname_or_ip ts)).
  set (F := fun k => copies (Z.to_nat (TargetGroup.get_weight g k)) (targets_of k ts)).
  assert (Hin : h ∈ L).
  { apply first_seen_elem_of. destruct (decide (h ∈ map TargetGroup.hostname_or_ip ts)) as [|Hni]; [done|].
    apply targets_of_no_key in Hni. congruence. }
  destruct (list_elem_of_split _ _ Hin) as (L1 & L2 & HL).
  pose proof (first_seen_NoDup (map TargetGroup.hostname_or_ip ts)) as Hnd.
  fold L in Hnd. rewrite HL in Hnd.
  apply NoDup_app in Hnd as (_ & H1 & H2). apply NoDup_cons in H2 as [H2 _].
  exists (flat_map F L1), (flat_map F L2).
  split; [|split].
  - rewrite HL, flat_map_app. cbn [flat_map]. f_equal. f_equal.
    unfold F at 1, TargetGroup.get_weight. rewrite Hw, Ht. reflexivity.
  - apply targets_of_other_blocks. intros Hh. apply (H1 _ Hh), list_elem_of_here.
  - by apply targets_of_other_blocks.
Qed.

Lemma weighted_list_weight_three_witness :
  let a1 := mkTarget "198.51.100.1" 8080 "/api" (Some "svc.local") in
  let a2 := mkTarget "198.51.100.2" 8080 "/api" (Some "svc.local") in
  let b := mkTarget "192.0.2.20" 80 "/" (Some "b.com") in
  let g := TargetGroup.mk "pool" {["svc.local" := 3]} true [b; a1; a2] in
  TargetGroup.__init__ example_sockets "pool" "b.com,svc.local:8080/api"
    (Some {["svc.local" := 3]}) = Ok g
  /\ exists before after,
       TargetGroup.get_weighted_target_list g
       = before ++ [a1; a2; a1; a2; a1; a2] ++ after
       /\ targets_of "svc.local" before = []
       /\ targets_of "svc.local" after = [].
Proof.
  intros a1 a2 b g. split; [vm_compute; reflexivity|].
  apply (weighted_list_weight_three g "svc.local" a1 a2);
    [reflexivity | reflexivity | vm_compute; reflexivity].
Defined.

Lemma copies_one block : copies 1 block = block.
Proof. unfold copies. simpl. by rewrite app_nil_r. Qed.

(** Splitting off one key: the targets whose key is [h] or in [L] are
    those of [h] together with those whose key is in [L]. *)
Lemma filter_key_cons h L ts :
  h ∉ L ->
  filter (fun t => TargetGroup.hostname_or_ip t ∈ h :: L) ts
  ≡ₚ targets_of h ts ++ filter (fun t => TargetGroup.hostname_or_ip t ∈ L) ts.
Proof.
  intros Hni. unfold targets_of. induction ts as [|t ts IH]; [done|].
  rewrite !filter_cons.
  destruct (decide (TargetGroup.hostname_or_ip t = h)) as [He|Hne].
  - rewrite decide_True by (rewrite He; apply list_elem_of_here).
    rewrite decide_False by (by rewrite He).
    simpl. by rewrite IH.
  - destruct (decide (TargetGroup.hostname_or_ip t ∈ L)) as [Hl|Hl].
    + rewrite decide_True by (by apply list_elem_of_further).
      rewrite IH. apply Permutation_middle.
    + rewrite decide_False; [done|].
      rewrite elem_of_cons. tauto.
Qed.

Lemma blocks_permutation L : forall ts,
  NoDup L ->
  flat_map (fun h => targets_of h ts) L
  ≡ₚ filter (fun t => TargetGroup.hostname_or_ip t ∈ L) ts.
Proof.
  induction L as [|h L IH]; intros ts Hnd; simpl.
  - induction ts as [|t ts IHts]; [done|].
    rewrite filter_cons. rewrite decide_False by apply not_elem_of_nil. done.
  - apply NoDup_cons in Hnd as [Hni Hnd].
    rewrite filter_key_cons by done. by rewrite IH.
Qed.

(** Laying the targets out block by block, one block per key, only
    rearranges them. *)
Lemma blocks_all ts :
  flat_map (fun h => targets_of h ts)
           (first_seen (map TargetGroup.hostname_or_ip ts)) ≡ₚ ts.
Proof.
  rewrite blocks_permutation by apply first_seen_NoDup.
  assert (Hall : forall l, Forall (fun t => TargetGroup.hostname_or_ip t
                  ∈ first_seen (map TargetGroup.hostname_or_ip ts)) l ->
                filter (fun t => TargetGroup.hostname_or_ip t
                  ∈ first_seen (map TargetGroup.hostname_or_ip ts)) l = l).
  { induction 1 as [|t l Ht _ IH]; [done|].
    rewrite filter_cons, decide_True by done. by rewrite IH. }
  rewrite Hall; [done|]. apply Forall_forall. intros t Ht.
  apply first_seen_elem_of, list_elem_of_In, in_map.
  by apply list_elem_of_In.
Qed.

Lemma parsed_hostname sk s ts :
  TargetGroup._parse_targets sk s = Ok ts ->
  Forall (fun t => is_Some (hostname t)) ts.
Proof.
  rewrite (parse_targets_entries sk s). intros H.
  apply parse_specs_ok in H as (news & Hf & ->). simpl.
  induction Hf as [|spec new specs news He Hf IH]; [constructor|].
  simpl. apply Forall_app. split; [|done].
  eapply Forall_impl; [exact (entry_targets_port sk spec new He)|].
  intros t (_ & h & _ & ->). by exists h.
Qed.

(** For targets that all carry a non-empty host name, the key of the
    grouping is the host name itself. *)
Lemma key_is_hostname ts :
  Forall (fun t => is_Some (hostname t)) ts ->
  Forall (fun t => hostname t <> Some EmptyString) ts ->
  map TargetGroup.hostname_or_ip ts = omap hostname ts
  /\ forall h, targets_of h ts = with_hostname h ts.
Proof.
  intros Hs Hne. induction Hs as [|t ts [h Ht] _ IH]; [done|].
  apply Forall_cons in Hne as [Hne1 Hne]. destruct (IH Hne) as [IH1 IH2].
  assert (Hk : TargetGroup.hostname_or_ip t = h).
  { unfold TargetGroup.hostname_or_ip. rewrite Ht.
    destruct h; [by rewrite Ht in Hne1 | done]. }
  split.
  - cbn [map omap list_omap]. rewrite Ht, Hk. cbn. by rewrite IH1.
  - intros h'. unfold targets_of, with_hostname in *.
    rewrite !filter_cons, Hk, Ht, IH2.
    destruct (decide (h = h')) as [->|Hd].
    + by rewrite !decide_True.
    + rewrite !decide_False; [done | congruence..].
Qed.

(** C10. A group constructed with an empty weights dictionary has a
    weighted list that holds every parsed target exactly once, laid out
    block by block per host name, every host name having weight 1; it is
    non-empty whenever the group has targets, whereas the same
    construction without a weights argument gives the empty list.  Every
    target of the group carries a host name, and when none of these is
    empty the blocks are the targets with one and the same [hostname]
    field, in the order in which the host names are first met. *)
Theorem empty_weights_expansion sk name s g :
  TargetGroup.__init__ sk name s (Some ∅) = Ok g ->
  TargetGroup.get_weighted_target_list g
  = flat_map (fun h => targets_of h (TargetGroup.targets g))
             (first_seen (map TargetGroup.hostname_or_ip (TargetGroup.targets g)))
  /\ TargetGroup.get_weighted_target_list g ≡ₚ TargetGroup.targets g
  /\ (TargetGroup.targets g <> [] ->
      TargetGroup.get_weighted_target_list g <> [])
  /\ (forall h, TargetGroup.get_weight g h = 1)
  /\ (forall g0, TargetGroup.__init__ sk name s None = Ok g0 ->
        TargetGroup.targets g0 = TargetGroup.targets g
        /\ TargetGroup.get_weighted_target_list g0 = [])
  /\ Forall (fun t => is_Some (hostname t)) (TargetGroup.targets g)
  /\ (Forall (fun t => hostname t <> Some EmptyString) (TargetGroup.targets g) ->
      TargetGroup.get_weighted_target_list g
      = flat_map (fun h => with_hostname h (TargetGroup.targets g))
                 (first_seen (omap hostname (TargetGroup.targets g)))).
Proof.
  unfold TargetGroup.__init__.
  destruct (TargetGroup._parse_targets sk s) as [ts|] eqn:Hparse; simpl; [|done].
  intros [= <-].
  set (g := TargetGroup.mk name ∅ true ts).
  assert (Hw : forall h, TargetGroup.get_weight g h = 1).
  { intros h. unfold TargetGroup.get_weight. simpl. by rewrite lookup_empty. }
  assert (Hspec : TargetGroup.get_weighted_target_list g
            = flat_map (fun h => targets_of h ts)
                (first_seen (map TargetGroup.hostname_or_ip ts))).
  { rewrite weighted_list_spec by done. apply flat_map_ext. intros h.
    rewrite Hw. change (Z.to_nat 1) with 1%nat. apply copies_one. }
  assert (Hperm : TargetGroup.get_weighted_target_list g ≡ₚ ts).
  { rewrite Hspec. apply blocks_all. }
  assert (Hsome : Forall (fun t => is_Some (hostname t)) ts)
    by exact (parsed_hostname sk s ts Hparse).
  split; [exact Hspec|]. split; [exact Hperm|]. split.
  { simpl. intros Hne He. rewrite He in Hperm.
    by apply Permutation_nil in Hperm. }
  split; [exact Hw|]. split; [intros g0 [= <-]; by split|].
  split; [exact Hsome|]. cbn [TargetGroup.targets g]. intros Hne.
  destruct (key_is_hostname ts Hsome Hne) as [Hkeys Hblocks].
  rewrite Hspec, Hkeys. apply flat_map_ext. intros h. apply Hblocks.
Qed.

Lemma empty_weights_expansion_witness :
  let a1 := mkTarget "198.51.100.1" 8080 "/api" (Some "svc.local") in
  let a2 := mkTarget "198.51.100.2" 8080 "/api" (Some "svc.local") in
  let b := mkTarget "192.0.2.20" 80 "/" (Some "b.com") in
  let a3 := mkTarget "198.51.100.1" 9090 "/" (Some "svc.local") in
  let a4 := mkTarget "198.51.100.2" 9090 "/" (Some "svc.local") in
  let g := TargetGroup.mk "pool" ∅ true [a1; a2; b; a3; a4] in
  TargetGroup.__init__ example_sockets "pool"
    "svc.local:8080/api,b.com,svc.local:9090" (Some ∅) = Ok g
  /\ TargetGroup.get_weighted_target_list g = [a1; a2; a3; a4; b]
  /\ TargetGroup.get_weighted_target_list g ≡ₚ [a1; a2; b; a3; a4].
Proof.
  intros a1 a2 b a3 a4 g.
  assert (Hg : TargetGroup.__init__ example_sockets "pool"
                 "svc.local:8080/api,b.com,svc.local:9090" (Some ∅) = Ok g)
    by (vm_compute; reflexivity).
  split; [exact Hg|].
  destruct (empty_weights_expansion example_sockets "pool"
              "svc.local:8080/api,b.com,svc.local:9090" g Hg)
    as (_ & H2 & _ & _ & _ & _ & H7).
  split; [|exact H2]. rewrite H7; [vm_compute; reflexivity|].
  repeat (constructor; [discriminate|]). constructor.
Defined.

(** * Beyond the claims: selection *)

(** Under every algorithm name but the three placeholders, one call of
    [select_target] on a non-empty group is one round-robin step. *)
Lemma select_target_default self g rq :
  placeholder (get_load_balancing_algorithm (LoadBalancer.config self)) = false ->
  TargetGroup.targets g <> [] ->
  exists t self',
    LoadBalancer.select_target self g rq = (Ok (Some t), self') /\
    TargetGroup.targets g
      !! Z.to_nat (next_index self g mod Z.of_nat (length (TargetGroup.targets g)))
      = Some t /\
    next_index self' g
      = (next_index self g + 1) mod Z.of_nat (length (TargetGroup.targets g)) /\
    LoadBalancer.config self' = LoadBalancer.config self.
Proof.
  intros Halg Hne.
  destruct (round_robin_step self g _ Hne) as (t & self' & Hrr & Hl & Hc & Hcfg).
  exists t, self'. unfold LoadBalancer.select_target, TargetGroup.get_targets.
  destruct (TargetGroup.targets g) as [|t0 ts] eqn:Ets; [done|].
  unfold placeholder in Halg.
  apply orb_false_iff in Halg as [Halg H3].
  apply orb_false_iff in Halg as [H1 H2].
  rewrite H1, H2, H3, Hrr. cbn [mbind result_bind].
  assert (Hn : next_index self' g
               = (next_index self g + 1) mod Z.of_nat (length (t0 :: ts))).
  { unfold next_index at 1. by rewrite Hc. }
  by destruct (String.eqb _ "ROUND_ROBIN").
Qed.

Lemma select_many_default k : forall self g rq,
  placeholder (get_load_balancing_algorithm (LoadBalancer.config self)) = false ->
  TargetGroup.targets g <> [] ->
  let ts := TargetGroup.targets g in
  let c := Z.to_nat (next_index self g mod Z.of_nat (length ts)) in
  fst (select_many k self g rq)
  = map (fun j => Ok (ts !! ((c + j) mod length ts)%nat)) (seq 0 k).
Proof.
  induction k as [|k IH]; intros self g rq Halg Hne ts c; [done|].
  destruct (select_target_default self g rq Halg Hne)
    as (t & self' & Hsel & Hl & Hnext & Hcfg).
  assert (Hlen : (0 < length ts)%nat)
    by (subst ts; destruct (TargetGroup.targets g); [done|simpl; lia]).
  assert (Hc : (c < length ts)%nat).
  { subst c. pose proof (Z.mod_pos_bound (next_index self g)
                           (Z.of_nat (length ts))). lia. }
  cbn [select_many]. rewrite Hsel.
  destruct (select_many k self' g rq) as [rs self''] eqn:Ek.
  cbn [fst seq map]. f_equal.
  - rewrite Nat.add_0_r, Nat.mod_small by done.
    fold ts in Hl. fold c in Hl. by rewrite Hl.
  - specialize (IH self' g rq). rewrite Ek in IH. cbn [fst] in IH.
    rewrite IH by (by rewrite ?Hcfg).
    rewrite <- seq_shift, map_map. apply map_ext. intros j.
    fold ts. rewrite Hnext. fold ts. do 2 f_equal.
    rewrite Z.mod_mod by lia.
    rewrite succ_index_nat by done. fold c.
    rewrite Nat.Div0.add_mod_idemp_l. f_equal. lia.
Qed.

Lemma lookup_rotation {A} (l : list A) (c : nat) :
  (c < length l)%nat ->
  map (fun j => l !! ((c + j) mod length l)%nat) (seq 0 (length l))
  = map Some (drop c l ++ take c l).
Proof.
  intros Hc. apply list_eq. intros i.
  rewrite !list_lookup_fmap.
  destruct (decide (i < length l)%nat) as [Hi|Hi].
  - rewrite lookup_seq_lt by done.
    cbn [fmap option_fmap option_map Nat.add].
    destruct (decide (i < length l - c)%nat) as [Hs|Hs].
    + rewrite lookup_app_l by (rewrite length_drop; lia).
      rewrite lookup_drop, Nat.mod_small by lia.
      destruct (lookup_lt_is_Some_2 l (c + i)) as [a Ha]; [lia|].
      by rewrite Ha.
    + rewrite lookup_app_r by (rewrite length_drop; lia).
      rewrite length_drop, lookup_take_lt by lia.
      replace (c + i)%nat with ((i - (length l - c)) + 1 * length l)%nat by lia.
      rewrite Nat.Div0.mod_add, Nat.mod_small by lia.
      destruct (lookup_lt_is_Some_2 l (i - (length l - c))) as [a Ha]; [lia|].
      by rewrite Ha.
  - rewrite lookup_seq_ge by lia.
    rewrite lookup_ge_None_2; [done|].
    rewrite length_app, length_drop, length_take. lia.
Qed.

(** X1. From any balancer state and under any algorithm name other than
    WEIGHTED, STICKY and LRT (the comparison is case-sensitive, so also
    under "round_robin" or the empty name), as many consecutive calls of
    [select_target] as the group has targets return a rotation of the
    target list: every target exactly once, in cyclic list order, starting
    at the stored counter taken modulo the length. *)
Theorem select_window_is_rotation self g rq :
  placeholder (get_load_balancing_algorithm (LoadBalancer.config self)) = false ->
  TargetGroup.targets g <> [] ->
  let ts := TargetGroup.targets g in
  let c := Z.to_nat (next_index self g mod Z.of_nat (length ts)) in
  (c < length ts)%nat
  /\ fst (select_many (length ts) self g rq)
     = map (fun t => Ok (Some t)) (drop c ts ++ take c ts).
Proof.
  intros Halg Hne ts c.
  assert (Hlen : (0 < length ts)%nat)
    by (subst ts; destruct (TargetGroup.targets g); [done|simpl; lia]).
  assert (Hc : (c < length ts)%nat).
  { subst c. pose proof (Z.mod_pos_bound (next_index self g)
                           (Z.of_nat (length ts))). lia. }
  split; [done|].
  rewrite select_many_default by done. fold ts. fold c.
  rewrite <- (map_map (fun j => ts !! ((c + j) mod length ts)%nat) Ok).
  by rewrite lookup_rotation, map_map.
Qed.

Lemma select_window_is_rotation_witness :
  let a := mkTarget "192.0.2.10" 8080 "/svc" (Some "a.com") in
  let b := mkTarget "192.0.2.20" 80 "/" (Some "b.com") in
  let c := mkTarget "192.0.2.30" 80 "/" (Some "c.com") in
  let g := TargetGroup.mk "pool" ∅ false [a; b; c] in
  let self := LoadBalancer.mk (mkConfig "round_robin" 5) {["pool" := 7]} ∅ in
  fst (select_many 3 self g example_request)
  = [Ok (Some b); Ok (Some c); Ok (Some a)].
Proof.
  intros a b c g self.
  apply (select_window_is_rotation self g example_request);
    [reflexivity | discriminate].
Defined.

(** X2. Under WEIGHTED, STICKY or LRT every call of [select_target] on a
    non-empty group returns the first target of the list and leaves the
    balancer as it was: no counter is created or advanced, however many
    calls are made. *)
Theorem placeholder_selects_first self g rq t ts n :
  placeholder (get_load_balancing_algorithm (LoadBalancer.config self)) = true ->
  TargetGroup.targets g = t :: ts ->
  select_many n self g rq = (replicate n (Ok (Some t)), self).
Proof.
  intros Halg Hts.
  assert (Hone : LoadBalancer.select_target self g rq = (Ok (Some t), self)).
  { unfold LoadBalancer.select_target, TargetGroup.get_targets. rewrite Hts.
    unfold placeholder in Halg.
    destruct (String.eqb_spec (get_load_balancing_algorithm
                                 (LoadBalancer.config self)) "ROUND_ROBIN")
      as [He|_]; [by rewrite He in Halg|].
    destruct (String.eqb _ "WEIGHTED"); [done|].
    destruct (String.eqb _ "STICKY"); [done|].
    destruct (String.eqb _ "LRT"); done. }
  induction n as [|n IH]; [done|].
  cbn [select_many]. by rewrite Hone, IH.
Qed.

Lemma placeholder_selects_first_witness :
  let a := mkTarget "192.0.2.10" 8080 "/svc" (Some "a.com") in
  let b := mkTarget "192.0.2.20" 80 "/" (Some "b.com") in
  let g := TargetGroup.mk "pool" {["b.com" := 5]} true [a; b] in
  let self := LoadBalancer.__init__ (mkConfig "WEIGHTED" 5) in
  select_many 3 self g example_request
  = ([Ok (Some a); Ok (Some a); Ok (Some a)], self).
Proof.
  intros a b g self.
  apply (placeholder_selects_first self g example_request a [b] 3); reflexivity.
Defined.

Lemma round_robin_frame self g ts :
  let self' := snd (LoadBalancer._round_robin self g ts) in
  LoadBalancer.config self' = LoadBalancer.config self
  /\ LoadBalancer._sessions self' = LoadBalancer._sessions self
  /\ forall k, k <> TargetGroup.name g ->
       LoadBalancer.round_robin_counters self' !! k
       = LoadBalancer.round_robin_counters self !! k.
Proof.
  unfold LoadBalancer._round_robin.
  set (self1 := if bool_decide _ then _ else _).
  assert (H1 : LoadBalancer.config self1 = LoadBalancer.config self
               /\ LoadBalancer._sessions self1 = LoadBalancer._sessions self
               /\ forall k, k <> TargetGroup.name g ->
                    LoadBalancer.round_robin_counters self1 !! k
                    = LoadBalancer.round_robin_counters self !! k).
  { unfold self1. case_bool_decide; [|done].
    repeat split; try done. intros k Hk. simpl. by rewrite lookup_insert_ne. }
  destruct H1 as (Hc & Hs & Hk).
  destruct (_ ← py_mod _ _; getitem ts _) as [t|e]; [|done].
  destruct (py_mod _ _) as [next|e]; [|done].
  cbn [snd]. repeat split; try done.
  intros k Hne. simpl. rewrite lookup_insert_ne by done. by apply Hk.
Qed.

(** X3. A call of [select_target] on a group changes nothing but the
    round-robin counter stored under that group's name: the configuration,
    the cached sessions and the counters of all other names stay as they
    are, for every algorithm, group and balancer state. *)
Theorem select_target_frame self g rq :
  let self' := snd (LoadBalancer.select_target self g rq) in
  LoadBalancer.config self' = LoadBalancer.config self
  /\ LoadBalancer._sessions self' = LoadBalancer._sessions self
  /\ forall k, k <> TargetGroup.name g ->
       LoadBalancer.round_robin_counters self' !! k
       = LoadBalancer.round_robin_counters self !! k.
Proof.
  unfold LoadBalancer.select_target.
  destruct (TargetGroup.get_targets g) as [|t ts]; [done|].
  pose proof (round_robin_frame self g (t :: ts)) as Hrr.
  destruct (LoadBalancer._round_robin self g (t :: ts)) as [r self'].
  repeat (match goal with |- context [if ?b then _ else _] => destruct b end);
    done.
Qed.

(** X4. After a round-robin selection on a non-empty group the counter
    stored under the group's name is a valid index into the target list,
    whatever integer was stored before (also a negative one or one beyond
    the end). *)
Theorem counter_in_range self g rq :
  placeholder (get_load_balancing_algorithm (LoadBalancer.config self)) = false ->
  TargetGroup.targets g <> [] ->
  exists c,
    LoadBalancer.round_robin_counters
      (snd (LoadBalancer.select_target self g rq)) !! TargetGroup.name g
    = Some c
    /\ 0 <= c < Z.of_nat (length (TargetGroup.targets g)).
Proof.
  intros Halg Hne.
  destruct (round_robin_step self g _ Hne) as (t & self' & Hrr & _ & Hc & _).
  assert (Hlen : 0 < Z.of_nat (length (TargetGroup.targets g)))
    by (destruct (TargetGroup.targets g); [done | simpl; lia]).
  exists ((next_index self g + 1) mod Z.of_nat (length (TargetGroup.targets g))).
  split; [|by apply Z.mod_pos_bound].
  unfold LoadBalancer.select_target, TargetGroup.get_targets.
  destruct (TargetGroup.targets g) as [|t0 ts] eqn:Ets; [done|].
  unfold placeholder in Halg.
  apply orb_false_iff in Halg as [Halg H3].
  apply orb_false_iff in Halg as [H1 H2].
  rewrite H1, H2, H3, Hrr. by destruct (String.eqb _ "ROUND_ROBIN").
Qed.

Lemma counter_in_range_witness :
  let a := mkTarget "192.0.2.10" 8080 "/svc" (Some "a.com") in
  let b := mkTarget "192.0.2.20" 80 "/" (Some "b.com") in
  let g := TargetGroup.mk "pool" ∅ false [a; b] in
  let self := LoadBalancer.mk (mkConfig "ROUND_ROBIN" 5) {["pool" := -7]} ∅ in
  exists c,
    LoadBalancer.round_robin_counters
      (snd (LoadBalancer.select_target self g example_request)) !! "pool"
    = Some c
    /\ 0 <= c < 2.
Proof.
  intros a b g self.
  apply (counter_in_range self g example_request); [reflexivity | discriminate].
Defined.

(** X5. The counter belongs to the group's name, not to the group: after
    a round-robin selection on one group, a selection on any other group
    of the same name continues from the counter the first one left, taken
    modulo the second group's own length. *)
Theorem same_name_shares_counter self g1 g2 rq :
  placeholder (get_load_balancing_algorithm (LoadBalancer.config self)) = false ->
  TargetGroup.name g1 = TargetGroup.name g2 ->
  TargetGroup.targets g1 <> [] ->
  TargetGroup.targets g2 <> [] ->
  let n1 := Z.of_nat (length (TargetGroup.targets g1)) in
  let n2 := Z.of_nat (length (TargetGroup.targets g2)) in
  let self1 := snd (LoadBalancer.select_target self g1 rq) in
  exists t,
    fst (LoadBalancer.select_target self1 g2 rq) = Ok (Some t)
    /\ TargetGroup.targets g2
         !! Z.to_nat (((next_index self g1 + 1) mod n1) mod n2) = Some t.
Proof.
  intros Halg Hname Hne1 Hne2 n1 n2 self1.
  destruct (select_target_default self g1 rq Halg Hne1)
    as (t1 & s1 & Hsel1 & _ & Hnext & Hcfg).
  subst self1. rewrite Hsel1. cbn [snd].
  destruct (select_target_default s1 g2 rq) as (t & s2 & Hsel2 & Hl & _);
    [by rewrite Hcfg | done |].
  exists t. rewrite Hsel2. split; [done|].
  assert (Hi : next_index s1 g2 = next_index s1 g1)
    by (unfold next_index; by rewrite Hname).
  rewrite Hi, Hnext in Hl. exact Hl.
Qed.

Lemma same_name_shares_counter_witness :
  let a := mkTarget "192.0.2.10" 8080 "/svc" (Some "a.com") in
  let b := mkTarget "192.0.2.20" 80 "/" (Some "b.com") in
  let c := mkTarget "192.0.2.30" 80 "/" (Some "c.com") in
  let g1 := TargetGroup.mk "pool" ∅ false [a; b; c] in
  let g2 := TargetGroup.mk "pool" ∅ false [a; b] in
  let self := LoadBalancer.mk (mkConfig "ROUND_ROBIN" 5) {["pool" := 1]} ∅ in
  exists t,
    fst (LoadBalancer.select_target
           (snd (LoadBalancer.select_target self g1 example_request)) g2
           example_request) = Ok (Some t)
    /\ [a; b] !! Z.to_nat (((1 + 1) mod 3) mod 2) = Some t.
Proof.
  intros a b c g1 g2 self.
  apply (same_name_shares_counter self g1 g2 example_request);
    [reflexivity | reflexivity | discriminate | discriminate].
Defined.

(** * Beyond the claims: the session cache *)

Lemma rsplit1_last c a b :
  contains c b = false -> rsplit1 c (a +:+ String c b) = [a; b].
Proof.
  intros Hb. induction a as [|d a IH]; simpl.
  - by rewrite Hb, Ascii.eqb_refl.
  - rewrite contains_app. simpl. rewrite Ascii.eqb_refl, orb_true_r.
    by rewrite IH.
Qed.

Lemma pretty_N_char_colon x : Ascii.eqb (pretty_N_char x) ":" = false.
Proof. unfold pretty_N_char. by repeat case_match. Qed.

Lemma pretty_N_go_colon x : forall s,
  contains ":" (pretty_N_go x s) = contains ":" s.
Proof.
  induction (N.lt_wf_0 x) as [x _ IH]; intros s.
  destruct (decide (x = 0)%N) as [->|Hx]; [by rewrite pretty_N_go_0|].
  rewrite pretty_N_go_step by lia.
  rewrite IH by (apply N.div_lt; lia).
  simpl. by rewrite pretty_N_char_colon.
Qed.

Lemma pretty_N_colon (x : N) : contains ":" (pretty x) = false.
Proof.
  unfold pretty, pretty_N. case_decide; [done|]. by rewrite pretty_N_go_colon.
Qed.

Lemma pretty_Z_colon (z : Z) : contains ":" (pretty z) = false.
Proof.
  destruct z as [|p|p]; [done| |].
  - apply (pretty_N_colon (Npos p)).
  - change (pretty (Z.neg p)) with ("-" +:+ pretty (Npos p)).
    simpl. apply (pretty_N_colon (Npos p)).
Qed.

Lemma host_port_inj t1 t2 :
  host_port t1 = host_port t2 -> ip t1 = ip t2 /\ port t1 = port t2.
Proof.
  unfold host_port. intros H.
  change (":" +:+ pretty (port t1)) with (String ":" (pretty (port t1))) in H.
  change (":" +:+ pretty (port t2)) with (String ":" (pretty (port t2))) in H.
  apply (f_equal (rsplit1 ":")) in H.
  rewrite !rsplit1_last in H by apply pretty_Z_colon.
  injection H as Hi Hp. split; [done|]. by apply (inj pretty).
Qed.

Lemma get_session_lookup self t :
  LoadBalancer._get_session self t
  = match LoadBalancer._sessions self !! host_port t with
    | Some session => (session, self)
    | None =>
        (LoadBalancer.new_session,
         LoadBalancer.mk (LoadBalancer.config self)
           (LoadBalancer.round_robin_counters self)
           (<[host_port t := LoadBalancer.new_session]>
              (LoadBalancer._sessions self)))
    end.
Proof. reflexivity. Qed.

Lemma session_cache_grows self t :
  let session := fst (LoadBalancer._get_session self t) in
  let self' := snd (LoadBalancer._get_session self t) in
  LoadBalancer._sessions self' !! host_port t = Some session
  /\ (forall k s, LoadBalancer._sessions self !! k = Some s ->
        LoadBalancer._sessions self' !! k = Some s)
  /\ LoadBalancer.config self' = LoadBalancer.config self
  /\ LoadBalancer.round_robin_counters self'
     = LoadBalancer.round_robin_counters self.
Proof.
  rewrite get_session_lookup.
  destruct (LoadBalancer._sessions self !! host_port t) as [s0|] eqn:E;
    cbn [fst snd].
  - done.
  - simpl. split; [by rewrite lookup_insert_eq|]. split; [|done].
    intros k s Hk. rewrite lookup_insert_ne; [done|]. intros <-. congruence.
Qed.

(** X7. [_get_session] only ever adds to the cache: the session it
    returns is stored under the target's "ip:port" key afterwards, every
    session cached before is still cached under its key, and the
    configuration and the round-robin counters are untouched. *)
Theorem get_session_grows self t :
  let session := fst (LoadBalancer._get_session self t) in
  let self' := snd (LoadBalancer._get_session self t) in
  LoadBalancer._sessions self' !! host_port t = Some session
  /\ (forall k s, LoadBalancer._sessions self !! k = Some s ->
        LoadBalancer._sessions self' !! k = Some s)
  /\ LoadBalancer.config self' = LoadBalancer.config self
  /\ LoadBalancer.round_robin_counters self'
     = LoadBalancer.round_robin_counters self.
Proof. apply session_cache_grows. Qed.

(** X8. Two targets share a cache slot only when they agree on address
    and port: the "ip:port" key determines both, so caching a session for
    one endpoint never provides one for a different endpoint. *)
Theorem get_session_separates self t1 t2 :
  (ip t1, port t1) <> (ip t2, port t2) ->
  host_port t1 <> host_port t2
  /\ LoadBalancer._sessions (snd (LoadBalancer._get_session self t1))
       !! host_port t2
     = LoadBalancer._sessions self !! host_port t2.
Proof.
  intros Hne.
  assert (Hk : host_port t1 <> host_port t2).
  { intros H. apply host_port_inj in H as [Hi Hp]. apply Hne. by rewrite Hi, Hp. }
  split; [done|]. rewrite get_session_lookup.
  destruct (LoadBalancer._sessions self !! host_port t1); cbn [snd]; [done|].
  simpl. by rewrite lookup_insert_ne.
Qed.

Lemma get_session_separates_witness :
  let t1 := mkTarget "192.0.2.1" 180 "/" None in
  let t2 := mkTarget "192.0.2.11" 80 "/" None in
  let self := LoadBalancer.__init__ (mkConfig "ROUND_ROBIN" 5) in
  host_port t1 <> host_port t2
  /\ LoadBalancer._sessions (snd (LoadBalancer._get_session self t1))
       !! host_port t2
     = LoadBalancer._sessions self !! host_port t2.
Proof.
  intros t1 t2 self. apply (get_session_separates self t1 t2). discriminate.
Defined.

(** * Beyond the claims: forwarding *)

Lemma forward_request_state c self target rq path :
  snd (LoadBalancer.forward_request c self target rq path)
  = snd (LoadBalancer.prepare c self target rq path).
Proof.
  unfold LoadBalancer.forward_request, LoadBalancer.forward.
  destruct (LoadBalancer.prepare c self target rq path) as [r self'].
  cbn [snd].
  destruct (so ← r; _) as [resp|e]; [done|].
  by repeat (match goal with |- context [if ?b then _ else _] => destruct b end).
Qed.


(** X9. Forwarding never disturbs the selection state: after
    [forward_request] the configuration and all round-robin counters are
    as before, every session cached before is still cached, and no cache
    slot other than the target's own "ip:port" has changed, whether the
    forward succeeded or failed. *)
Theorem forward_request_frame c self target rq path :
  let self' := snd (LoadBalancer.forward_request c self target rq path) in
  LoadBalancer.config self' = LoadBalancer.config self
  /\ LoadBalancer.round_robin_counters self'
     = LoadBalancer.round_robin_counters self
  /\ (forall k s, LoadBalancer._sessions self !! k = Some s ->
        LoadBalancer._sessions self' !! k = Some s)
  /\ (forall k, k <> host_port target ->
        LoadBalancer._sessions self' !! k = LoadBalancer._sessions self !! k).
Proof.
  rewrite forward_request_state.
  destruct (prepare_inv c self target rq path)
    as [[e ->]|(url & data & q & _ & _ & _ & ->)]; cbn [snd]; [done|].
  destruct (session_cache_grows self target) as (_ & Hkeep & Hc & Hr).
  repeat split; try done.
  intros k Hk. rewrite get_session_lookup.
  destruct (LoadBalancer._sessions self !! host_port target); cbn [snd]; [done|].
  simpl. by rewrite lookup_insert_ne.
Qed.




(** * Beyond the claims: resolution *)

Lemma unique_ips_fold infos : forall (st : gset string * list string),
  (forall x, x ∈ fst st <-> x ∈ snd st) ->
  snd (fold_left
         (fun (st : gset string * list string) (ai : addr_info) =>
            let ip := fst (snd ai) in
            if bool_decide (ip ∈ fst st) then st
            else (fst st ∪ {[ip]}, snd st ++ [ip]))
         infos st)
  = fold_left (fun acc k => if bool_decide (k ∈ acc) then acc else acc ++ [k])
              (map addr_of infos) (snd st).
Proof.
  induction infos as [|ai infos IH]; intros [seen acc] Hst; [done|].
  cbn [fold_left map]. cbn [fst snd] in *. unfold addr_of at 1.
  destruct (decide (ai.2.1 ∈ seen)) as [Hin|Hni].
  - rewrite !bool_decide_eq_true_2 by (done || by apply Hst).
    by apply IH.
  - rewrite !bool_decide_eq_false_2 by (done || by rewrite <- Hst).
    rewrite IH; [done|]. cbn [fst snd]. intros x.
    rewrite elem_of_union, elem_of_singleton, elem_of_app,
      list_elem_of_singleton, Hst. tauto.
Qed.

Lemma unique_ips_spec infos :
  TargetGroup.unique_ips infos = first_seen (map addr_of infos)
  /\ NoDup (TargetGroup.unique_ips infos)
  /\ forall a, a ∈ TargetGroup.unique_ips infos <-> a ∈ map addr_of infos.
Proof.
  assert (H : TargetGroup.unique_ips infos = first_seen (map addr_of infos)).
  { unfold TargetGroup.unique_ips, first_seen.
    rewrite unique_ips_fold; [done|]. intros x. cbn [fst snd].
    split; [by intros ?%elem_of_empty | by intros ?%elem_of_nil]. }
  rewrite H. split; [done|]. split; [apply first_seen_NoDup|].
  intros a. apply first_seen_elem_of.
Qed.

(** X13. The addresses that [_resolve_dns] keeps from a [getaddrinfo]
    answer are the distinct addresses of the answer in the order of their
    first occurrence: none is repeated, none is lost, none is added. *)
Theorem unique_ips_first_seen infos :
  TargetGroup.unique_ips infos = first_seen (map addr_of infos)
  /\ NoDup (TargetGroup.unique_ips infos)
  /\ forall a, a ∈ TargetGroup.unique_ips infos <-> a ∈ map addr_of infos.
Proof. apply unique_ips_spec. Qed.

Lemma isinstance_gaierror_OSError e :
  isinstance e gaierror = true -> isinstance e OSError = true.
Proof. destruct e as [[] s]; vm_compute; congruence. Qed.

Lemma resolve_dns_facts sk h ips :
  TargetGroup._resolve_dns sk h = Ok ips ->
  NoDup ips
  /\ (forall u, inet_aton sk h = Ok u -> ips = [h])
  /\ (forall e, inet_aton sk h = Raise e ->
        forall a, a ∈ ips ->
          exists infos, getaddrinfo sk h = Ok infos /\ a ∈ map addr_of infos).
Proof.
  unfold TargetGroup._resolve_dns.
  destruct (inet_aton sk h) as [u|e].
  - intros [= <-]. split; [apply NoDup_singleton|]. split; [done|]. done.
  - destruct (isinstance e OSError); [|done].
    destruct (getaddrinfo sk h) as [infos|e'].
    + intros [= <-]. destruct (unique_ips_spec infos) as (_ & Hnd & Hin).
      split; [done|]. split; [done|].
      intros e0 _ a Ha. exists infos. split; [done|]. by apply Hin.
    + destruct (isinstance e' gaierror); [|done].
      intros [= <-]. split; [constructor|]. split; [done|].
      by intros e0 _ a Ha%elem_of_nil.
Qed.

(** X14. [_resolve_dns] never returns an address twice.  For a host that
    [inet_aton] accepts the answer is the host itself and [getaddrinfo]
    is not consulted; otherwise every address comes from [getaddrinfo]'s
    answer. *)
Theorem resolve_dns_result sk h ips :
  TargetGroup._resolve_dns sk h = Ok ips ->
  NoDup ips
  /\ (forall u, inet_aton sk h = Ok u -> ips = [h])
  /\ (forall e, inet_aton sk h = Raise e ->
        forall a, a ∈ ips ->
          exists infos, getaddrinfo sk h = Ok infos /\ a ∈ map addr_of infos).
Proof. apply resolve_dns_facts. Qed.

Lemma resolve_dns_result_witness :
  NoDup ["198.51.100.1"; "198.51.100.2"]
  /\ (forall u, inet_aton example_sockets "svc.local" = Ok u ->
        ["198.51.100.1"; "198.51.100.2"] = ["svc.local"])
  /\ (forall e, inet_aton example_sockets "svc.local" = Raise e ->
        forall a, a ∈ ["198.51.100.1"; "198.51.100.2"] ->
          exists infos, getaddrinfo example_sockets "svc.local" = Ok infos
                        /\ a ∈ map addr_of infos).
Proof.
  apply (resolve_dns_result example_sockets "svc.local"). vm_compute. reflexivity.
Defined.

(** X15. An exception leaves [_resolve_dns] only in two ways: [inet_aton]
    raised something that is not an [OSError], or [inet_aton] raised an
    [OSError] and [getaddrinfo] then raised something that is not a
    [gaierror].  In particular a [gaierror] never escapes, while any other
    [OSError] of [getaddrinfo] does. *)
Theorem resolve_dns_escapes sk h e :
  TargetGroup._resolve_dns sk h = Raise e ->
  isinstance e gaierror = false
  /\ ((inet_aton sk h = Raise e /\ isinstance e OSError = false)
      \/ (exists e0, inet_aton sk h = Raise e0
                     /\ isinstance e0 OSError = true
                     /\ getaddrinfo sk h = Raise e)).
Proof.
  unfold TargetGroup._resolve_dns.
  destruct (inet_aton sk h) as [u|e0]; [done|].
  destruct (isinstance e0 OSError) eqn:H0.
  - destruct (getaddrinfo sk h) as [infos|e']; [done|].
    destruct (isinstance e' gaierror) eqn:H1; [done|].
    intros [= <-]. split; [done|]. right. eauto.
  - intros [= <-]. split; [|by left].
    destruct (isinstance e0 gaierror) eqn:H1; [|done].
    apply isinstance_gaierror_OSError in H1. congruence.
Qed.

Lemma resolve_dns_escapes_witness :
  let e := mkExn UnicodeError "encoding with 'idna' codec failed" in
  isinstance e gaierror = false
  /\ ((inet_aton example_sockets "a..b" = Raise e
       /\ isinstance e OSError = false)
      \/ (exists e0, inet_aton example_sockets "a..b" = Raise e0
                     /\ isinstance e0 OSError = true
                     /\ getaddrinfo example_sockets "a..b" = Raise e)).
Proof.
  intros e. apply (resolve_dns_escapes example_sockets "a..b" e).
  vm_compute. reflexivity.
Defined.

(** * Beyond the claims: parsing *)

Lemma parse_specs_acc sk specs : forall acc,
  TargetGroup.parse_specs sk specs acc
  = ts ← TargetGroup.parse_specs sk specs []; Ok (acc ++ ts).
Proof.
  induction specs as [|spec rest IH]; intros acc.
  - simpl. by rewrite app_nil_r.
  - rewrite !parse_specs_cons.
    destruct (entry_targets sk spec) as [new|e]; simpl; [|done].
    rewrite (IH (acc ++ new)), (IH new).
    destruct (TargetGroup.parse_specs sk rest []) as [ts|e]; simpl; [|done].
    by rewrite app_assoc.
Qed.

Lemma parse_specs_app sk l1 l2 :
  TargetGroup.parse_specs sk (l1 ++ l2) []
  = ts1 ← TargetGroup.parse_specs sk l1 [];
    ts2 ← TargetGroup.parse_specs sk l2 [];
    Ok (ts1 ++ ts2).
Proof.
  induction l1 as [|spec l1 IH].
  - simpl. by destruct (TargetGroup.parse_specs sk l2 []).
  - cbn [app]. rewrite !parse_specs_cons.
    destruct (entry_targets sk spec) as [new|e]; simpl; [|done].
    rewrite (parse_specs_acc sk (l1 ++ l2)), (parse_specs_acc sk l1), IH.
    destruct (TargetGroup.parse_specs sk l1 []) as [ts1|e]; simpl; [|done].
    destruct (TargetGroup.parse_specs sk l2 []) as [ts2|e]; simpl; [|done].
    by rewrite app_assoc.
Qed.

Lemma split_not_nil c s : split c s <> [].
Proof.
  destruct s as [|d s]; simpl; [done|].
  destruct (Ascii.eqb d c); [done|]. by destruct (split c s).
Qed.

Lemma split_app c s1 s2 :
  split c (s1 +:+ String c s2) = split c s1 ++ split c s2.
Proof.
  induction s1 as [|d s1 IH]; simpl.
  - by rewrite Ascii.eqb_refl.
  - destruct (Ascii.eqb d c); [by rewrite IH|].
    rewrite IH. pose proof (split_not_nil c s1).
    by destruct (split c s1).
Qed.

Lemma split_no_sep c s : contains c s = false -> split c s = [s].
Proof.
  induction s as [|d s IH]; simpl; [done|].
  intros H. apply orb_false_iff in H as [Hd Hs]. by rewrite Hd, IH.
Qed.

Lemma parse_comma sk s1 s2 :
  TargetGroup._parse_targets sk (s1 +:+ String "," s2)
  = ts1 ← TargetGroup._parse_targets sk s1;
    ts2 ← TargetGroup._parse_targets sk s2;
    Ok (ts1 ++ ts2).
Proof.
  rewrite !parse_targets_entries. unfold entries.
  by rewrite split_app, map_app, parse_specs_app.
Qed.

(** X16. Parsing distributes over the comma: the targets of
    "s1,s2" are the targets of s1 followed by the targets of s2, and
    parsing the whole fails exactly with the first failure met in that
    order. *)
Theorem parse_targets_comma sk s1 s2 :
  TargetGroup._parse_targets sk (s1 +:+ String "," s2)
  = ts1 ← TargetGroup._parse_targets sk s1;
    ts2 ← TargetGroup._parse_targets sk s2;
    Ok (ts1 ++ ts2).
Proof. apply parse_comma. Qed.

(** X17. A specification string whose entries are all empty once the
    white space is trimmed (the empty string, blanks, stray commas) yields
    no targets, without any call to the resolver having to succeed. *)
Theorem parse_targets_blank sk s :
  (forall spec, spec ∈ entries s -> spec = EmptyString) ->
  TargetGroup._parse_targets sk s = Ok [].
Proof.
  rewrite parse_targets_entries. generalize (entries s).
  intros specs. induction specs as [|spec rest IH]; intros Hall; [done|].
  rewrite (Hall spec) by apply list_elem_of_here. cbn.
  apply IH. intros x Hx. apply Hall. by apply list_elem_of_further.
Qed.

Lemma parse_targets_blank_witness :
  TargetGroup._parse_targets
    (mkSockets (fun _ => Raise (mkExn ValueError "unused"))
               (fun _ => Raise (mkExn ValueError "unused")))
    " , ,,  " = Ok [].
Proof.
  apply parse_targets_blank. intros spec Hspec.
  vm_compute in Hspec. repeat (apply elem_of_cons in Hspec as [->|Hspec]; [reflexivity|]).
  by apply elem_of_nil in Hspec.
Defined.

Lemma entry_targets_shape sk spec new :
  entry_targets sk spec = Ok new ->
  exists h p u,
    contains "/" h = false
    /\ NoDup (map ip new)
    /\ Forall (fun t => port t = p /\ base_uri t = String "/" u
                        /\ hostname t = Some h) new.
Proof.
  unfold entry_targets.
  destruct (is_empty spec).
  { intros [= <-]. exists EmptyString, 0, EmptyString.
    split; [done|]. split; constructor. }
  assert (Hs : exists a u, TargetGroup.split_base_uri spec = Ok (a, String "/" u)
                           /\ contains "/" a = false).
  { unfold TargetGroup.split_base_uri.
    destruct (contains "/" spec) eqn:Hc.
    - destruct (split1_contains _ _ Hc) as (a & b & -> & _ & Ha). simpl.
      exists a. destruct b; simpl; eauto.
    - exists spec, EmptyString. eauto. }
  destruct Hs as (a & u & -> & Ha). simpl.
  assert (Hp : TargetGroup.split_port a = Ok None
               \/ exists h p, TargetGroup.split_port a = Ok (Some (h, p))
                              /\ contains "/" h = false).
  { unfold TargetGroup.split_port.
    destruct (contains ":" a) eqn:Hc.
    - destruct (rsplit1_contains _ _ Hc) as (h & ps & -> & Heq & _).
      destruct (int ps) as [p|]; [|by left]. right. exists h, p. split; [done|].
      rewrite Heq, contains_app in Ha. by apply orb_false_iff in Ha as [? _].
    - right. eauto. }
  destruct Hp as [->|(h & p & -> & Hh)]; simpl.
  { intros [= <-]. exists EmptyString, 0, EmptyString.
    split; [done|]. split; constructor. }
  destruct (TargetGroup._resolve_dns sk h) as [ips|] eqn:Hr; simpl; [|done].
  intros [= <-]. exists h, p, u. split; [done|]. split.
  - rewrite map_map. simpl. rewrite map_id.
    by destruct (resolve_dns_facts sk h ips Hr) as [Hnd _].
  - apply Forall_forall. intros t Ht%list_elem_of_In.
    apply in_map_iff in Ht as (a0 & <- & _). done.
Qed.

(** X18. Every parsed target carries a host name, the host name contains
    no slash, and the base URI begins with a slash. *)
Theorem parsed_target_shape sk s ts :
  TargetGroup._parse_targets sk s = Ok ts ->
  Forall (fun t => (exists u, base_uri t = String "/" u)
                   /\ exists h, hostname t = Some h /\ contains "/" h = false)
         ts.
Proof.
  intros H. apply parse_targets_ok in H as [[_ ->]|(_ & news & Hf & ->)];
    [constructor|].
  induction Hf as [|spec new specs news He Hf IH]; [constructor|].
  simpl. apply Forall_app. split; [|done].
  destruct (entry_targets_shape sk spec new He) as (h & p & u & Hh & _ & Hall).
  eapply Forall_impl; [exact Hall|].
  intros t (_ & Hu & Ht). split; eauto.
Qed.

Lemma parsed_target_shape_witness :
  Forall (fun t => (exists u, base_uri t = String "/" u)
                   /\ exists h, hostname t = Some h /\ contains "/" h = false)
         [mkTarget "192.0.2.10" 8080 "/svc/v1/" (Some "a.com");
          mkTarget "192.0.2.1" 80 "/" (Some "192.0.2.1")].
Proof.
  apply (parsed_target_shape example_sockets "a.com:8080/svc/v1/, 192.0.2.1").
  vm_compute. reflexivity.
Defined.

(** X19. One entry yields one target per distinct resolved address, and
    these targets differ in nothing but the address: they share the port,
    the base URI and the host name. *)
Theorem single_entry_targets sk s ts :
  contains "," s = false ->
  TargetGroup._parse_targets sk s = Ok ts ->
  NoDup (map ip ts)
  /\ forall t1 t2, t1 ∈ ts -> t2 ∈ ts ->
       port t1 = port t2 /\ base_uri t1 = base_uri t2
       /\ hostname t1 = hostname t2.
Proof.
  intros Hc. rewrite parse_targets_entries. unfold entries.
  rewrite split_no_sep by done. cbn [map].
  rewrite parse_specs_cons.
  destruct (entry_targets sk (strip s)) as [new|] eqn:He; simpl; [|done].
  intros [= <-].
  destruct (entry_targets_shape sk _ _ He) as (h & p & u & _ & Hnd & Hall).
  split; [done|]. rewrite Forall_forall in Hall.
  intros t1 t2 H1 H2.
  destruct (Hall _ H1) as (-> & -> & ->), (Hall _ H2) as (-> & -> & ->). done.
Qed.

Lemma single_entry_targets_witness :
  let ts := [mkTarget "198.51.100.1" 8080 "/api" (Some "svc.local");
             mkTarget "198.51.100.2" 8080 "/api" (Some "svc.local")] in
  NoDup (map ip ts)
  /\ forall t1 t2, t1 ∈ ts -> t2 ∈ ts ->
       port t1 = port t2 /\ base_uri t1 = base_uri t2
       /\ hostname t1 = hostname t2.
Proof.
  intros ts.
  apply (single_entry_targets example_sockets " svc.local:8080/api ");
    vm_compute; reflexivity.
Defined.

Lemma resolve_dns_handled_at sk h :
  handled_at sk h -> exists ips, TargetGroup._resolve_dns sk h = Ok ips.
Proof.
  intros [Ha Hg]. unfold TargetGroup._resolve_dns.
  destruct (inet_aton sk h) as [|e]; [eauto|].
  rewrite (Ha e eq_refl).
  destruct (getaddrinfo sk h) as [|e']; [eauto|].
  rewrite (Hg e' eq_refl). eauto.
Qed.

Lemma entry_targets_handled_at sk spec :
  (forall h, host_of_entry spec h -> handled_at sk h) ->
  exists new, entry_targets sk spec = Ok new.
Proof.
  intros Hh. unfold entry_targets.
  destruct (is_empty spec); [eauto|].
  destruct (split_base_uri_ok spec) as (a & uri & Hs). rewrite Hs. simpl.
  unfold TargetGroup.split_port.
  destruct (contains ":" a) eqn:Hc.
  - destruct (rsplit1_contains _ _ Hc) as (h & ps & Hr & _). rewrite Hr.
    destruct (int ps) as [p|]; simpl; [|eauto].
    destruct (resolve_dns_handled_at sk h) as (ips & ->); [|simpl; eauto].
    apply Hh. exists a, uri. split; [done|]. right. eauto.
  - simpl. destruct (resolve_dns_handled_at sk a) as (ips & ->); [|simpl; eauto].
    apply Hh. exists a, uri. split; [done|]. by left.
Qed.

Lemma example_sockets_handled_at h :
  contains "000" h = false -> idna_ok h = true ->
  handled_at example_sockets h.
Proof.
  intros Hn Hi. split; intros e; cbn [example_sockets inet_aton getaddrinfo];
    rewrite ?Hn, ?Hi; cbn [negb].
  - destruct (dotted_quad h); [done|]. by intros [= <-].
  - destruct (dict_get h example_hosts); [done|]. by intros [= <-].
Qed.

(** X20. When, for every host name that the entries of a specification
    string give, the two socket calls fail only with the exceptions their
    handlers name ([OSError] for [inet_aton], [gaierror] for
    [getaddrinfo]), construction succeeds for this string and every
    weights argument; the group keeps the given name and weights and holds
    the parsed targets. *)
Theorem construction_succeeds_when_handled sk name s w :
  (forall spec h, spec ∈ entries s -> host_of_entry spec h -> handled_at sk h) ->
  exists ts,
    TargetGroup._parse_targets sk s = Ok ts
    /\ TargetGroup.__init__ sk name s w
       = Ok (TargetGroup.mk name (default ∅ w) (bool_decide (w <> None)) ts).
Proof.
  intros Hh.
  assert (Hall : forall specs,
            (forall spec h, spec ∈ specs -> host_of_entry spec h ->
                            handled_at sk h) ->
            exists news,
              Forall2 (fun spec new => entry_targets sk spec = Ok new) specs news).
  { induction specs as [|spec specs IH]; intros Hs; [exists []; constructor|].
    destruct (entry_targets_handled_at sk spec) as [new Hn].
    { intros h. apply Hs, list_elem_of_here. }
    destruct IH as [news Hnews].
    { intros spec' h Hin. apply Hs. by apply list_elem_of_further. }
    exists (new :: news). by constructor. }
  destruct (Hall (entries s) Hh) as [news Hnews].
  exists (concat news).
  assert (Hp : TargetGroup._parse_targets sk s = Ok (concat news)).
  { rewrite (parse_targets_entries sk s). apply parse_specs_ok. eauto. }
  split; [done|]. unfold TargetGroup.__init__. by rewrite Hp.
Qed.

Lemma construction_succeeds_when_handled_witness :
  exists ts,
    TargetGroup._parse_targets example_sockets
      "b.com:x, nowhere.example, b.com:8080/api, 192.0.2.1" = Ok ts
    /\ TargetGroup.__init__ example_sockets "pool"
         "b.com:x, nowhere.example, b.com:8080/api, 192.0.2.1" None
       = Ok (TargetGroup.mk "pool" ∅ false ts).
Proof.
  apply (construction_succeeds_when_handled example_sockets "pool"
           "b.com:x, nowhere.example, b.com:8080/api, 192.0.2.1" None).
  intros spec h Hin (a & uri & Hs & Hh).
  vm_compute in Hin.
  repeat (apply elem_of_cons in Hin as [->|Hin]);
    [| | | |by apply elem_of_nil in Hin];
    vm_compute in Hs; injection Hs as <- <-;
    (destruct Hh as [[Hc ->]|[Hc (ps & Hr)]];
     [|vm_compute in Hr; injection Hr as <- _]);
    try (vm_compute in Hc; discriminate Hc);
    apply example_sockets_handled_at; reflexivity.
Defined.

Lemma split_port_rsplit h port_str :
  contains ":" port_str = false ->
  TargetGroup.split_port (h +:+ String ":" port_str)
  = Ok (match int port_str with
        | Some p => Some (h, p)
        | None => None
        end).
Proof.
  intros Hp. unfold TargetGroup.split_port.
  rewrite contains_app. cbn [contains]. rewrite Ascii.eqb_refl, orb_true_r.
  rewrite rsplit1_last by done. by destruct (int port_str).
Qed.

(** X21. The port is what follows the last colon of the address part:
    for a port text without a colon, the address "h:port" splits into the
    host h, colons in h included, and the integer that [int] reads; when
    [int] rejects the text the entry is dropped. *)
Theorem split_port_last_colon h port_str :
  contains ":" port_str = false ->
  TargetGroup.split_port (h +:+ String ":" port_str)
  = Ok (match int port_str with
        | Some p => Some (h, p)
        | None => None
        end).
Proof. apply split_port_rsplit. Qed.

Lemma split_port_last_colon_witness :
  TargetGroup.split_port ("fe80::1" +:+ String ":" "8080")
  = Ok (match int "8080" with
        | Some p => Some ("fe80::1", p)
        | None => None
        end).
Proof. apply (split_port_last_colon "fe80::1" "8080"). reflexivity. Defined.

(** X22. An entry whose port text [int] rejects is dropped before the
    resolver is asked, with or without a base URI after the address, and
    the rest of the string is parsed as if the entry were not there.  The
    port text is what follows the last colon of the entry's address
    part. *)
Theorem bad_port_entry_dropped sk entry h port_str uri :
  contains "," entry = false ->
  TargetGroup.split_base_uri (strip entry)
  = Ok (h +:+ String ":" port_str, uri) ->
  contains ":" port_str = false ->
  int port_str = None ->
  TargetGroup._parse_targets sk entry = Ok []
  /\ forall s1 s2,
       TargetGroup._parse_targets sk
         (s1 +:+ String "," (entry +:+ String "," s2))
       = TargetGroup._parse_targets sk (s1 +:+ String "," s2).
Proof.
  intros Hc Hs Hp Hint.
  assert (He : TargetGroup._parse_targets sk entry = Ok []).
  { rewrite (parse_targets_entries sk entry). unfold entries.
    rewrite split_no_sep by done. cbn [map]. rewrite parse_specs_cons.
    unfold entry_targets. rewrite Hs. cbn [mbind result_bind fst].
    rewrite split_port_rsplit, Hint by done.
    by destruct (is_empty (strip entry)). }
  split; [done|]. intros s1 s2.
  rewrite !parse_comma, He.
  destruct (TargetGroup._parse_targets sk s1); simpl; [|done].
  by destruct (TargetGroup._parse_targets sk s2).
Qed.

Lemma bad_port_entry_dropped_witness :
  TargetGroup._parse_targets example_sockets " b.com:notaport/api " = Ok []
  /\ forall s1 s2,
       TargetGroup._parse_targets example_sockets
         (s1 +:+ String "," (" b.com:notaport/api " +:+ String "," s2))
       = TargetGroup._parse_targets example_sockets (s1 +:+ String "," s2).
Proof.
  apply (bad_port_entry_dropped example_sockets " b.com:notaport/api " "b.com"
           "notaport" "/api"); reflexivity.
Defined.

(** * Beyond the claims: weights *)

Lemma flat_map_cons_replicate n (l : list Target) :
  flat_map (fun t => t :: replicate n t) l ≡ₚ l ++ flat_map (replicate n) l.
Proof.
  induction l as [|t l IH]; [done|].
  cbn [flat_map app]. rewrite IH. apply perm_skip.
  apply Permutation_app_swap_app.
Qed.

Lemma copies_replicate n (l : list Target) :
  copies n l ≡ₚ flat_map (replicate n) l.
Proof.
  induction n as [|n IH].
  - unfold copies. simpl. induction l as [|t l IHl]; [done|]. done.
  - change (copies (S n) l) with (l ++ copies n l).
    rewrite IH. symmetry. apply (flat_map_cons_replicate n l).
Qed.

Lemma flat_map_perm_ext {A} (f g : A -> list Target) L :
  (forall x, f x ≡ₚ g x) -> flat_map f L ≡ₚ flat_map g L.
Proof.
  intros H. induction L as [|x L IH]; [done|].
  cbn [flat_map]. by rewrite (H x), IH.
Qed.

Lemma flat_map_Forall_ext {A B} (P : A -> Prop) (f g : A -> list B) l :
  Forall P l -> (forall x, P x -> f x = g x) -> flat_map f l = flat_map g l.
Proof.
  intros Hl H. induction Hl as [|x l Hx _ IH]; [done|].
  cbn [flat_map]. by rewrite (H x Hx), IH.
Qed.

Lemma flat_map_flat_map {A B C} (f : B -> list C) (g : A -> list B) l :
  flat_map f (flat_map g l) = flat_map (fun x => flat_map f (g x)) l.
Proof.
  induction l as [|x l IH]; [done|].
  cbn [flat_map]. by rewrite flat_map_app, IH.
Qed.

Lemma weighted_repeated g :
  TargetGroup._weights_provided g = true ->
  TargetGroup.get_weighted_target_list g ≡ₚ repeated g (TargetGroup.targets g).
Proof.
  intros Hp. rewrite weighted_list_spec by done.
  set (ts := TargetGroup.targets g).
  set (n := fun h => Z.to_nat (TargetGroup.get_weight g h)).
  unfold repeated.
  change (flat_map _ ts)
    with (flat_map (fun t => replicate (n (TargetGroup.hostname_or_ip t)) t) ts).
  rewrite <- (blocks_all ts) at 2.
  rewrite flat_map_flat_map.
  apply flat_map_perm_ext. intros h. fold (n h).
  rewrite copies_replicate.
  erewrite (flat_map_Forall_ext _ (replicate (n h))); [done|apply targets_of_key|].
  intros t Ht. cbv beta in Ht |- *. by rewrite Ht.
Qed.

(** X23. In a group constructed with weights, the weighted list holds
    every target exactly as often as the weight of its host name says
    (the address stands in for an absent or empty host name; a weight of
    zero or below counts as zero): it is a rearrangement of the target
    list with every target repeated that many times. *)
Theorem weighted_list_multiplicities g :
  TargetGroup._weights_provided g = true ->
  TargetGroup.get_weighted_target_list g ≡ₚ repeated g (TargetGroup.targets g).
Proof. apply weighted_repeated. Qed.

Lemma weighted_list_multiplicities_witness :
  let a := mkTarget "192.0.2.10" 8080 "/svc" (Some "a.com") in
  let b := mkTarget "192.0.2.20" 80 "/" (Some "b.com") in
  let c := mkTarget "192.0.2.30" 80 "/" None in
  let g := TargetGroup.mk "pool" {["a.com" := 2; "b.com" := -1]} true [a; b; c] in
  TargetGroup.get_weighted_target_list g ≡ₚ [a; a; c].
Proof.
  intros a b c g.
  apply (weighted_list_multiplicities g). reflexivity.
Defined.


